(** * Deep Space Explorer: the game core of the portfolio repository

    A shallow embedding of [phaser-space-explorer/src]: the seeded sector
    generator ([SectorFactory.js]), the encounter director
    ([EncounterDirector.js]) and the play scene ([PlayScene.js]).

    JavaScript numbers are binary64 floats and are modelled by Rocq's
    primitive [float]; the counters the scene only increments or decrements
    by one ([hull], [discoveries], [hp]) and the seed are modelled by [Z].
    The scene is an explicit record; a method is a function from scene to
    scene, or, where it can throw, to an outcome that says whether it
    returned and holds the scene it left.  Calls the scene makes on the framework that leave no trace in
    the record (event emission, scene manager requests, audio, creation and
    destruction of game objects) are appended to the scene's [effects] log. *)

From Stdlib Require Import ZArith List Bool String Lia.
From Stdlib Require Import Floats Uint63 DecimalString.
Import ListNotations.

Set Warnings "-inexact-float".

Local Open Scope string_scope.
Local Open Scope list_scope.
Local Open Scope Z_scope.

(** ** JavaScript numbers *)

Definition num : Set := float.
Bind Scope float_scope with num.

Definition num_of_Z (z : Z) : num :=
  match z with
  | Z0 => 0%float
  | Zpos _ => PrimFloat.of_uint63 (Uint63.of_Z z)
  | Zneg _ => PrimFloat.opp (PrimFloat.of_uint63 (Uint63.of_Z (- z)))
  end.

Definition num_of_nat (n : nat) : num := num_of_Z (Z.of_nat n).

(** [Math.floor] of a finite number, as an integer; [m * 2^e] with a shift
    to the right for a negative [e], which rounds towards minus infinity. *)
Definition Math_floor (f : num) : Z :=
  match Prim2SF f with
  | S754_finite false m e => Z.shiftl (Zpos m) e
  | S754_finite true m e => Z.shiftl (Zneg m) e
  | _ => 0
  end.

(** [ToInt32] and [ToUint32] of an integral number. *)
Definition ToInt32 (z : Z) : Z := (z + 2147483648) mod 4294967296 - 2147483648.
Definition ToUint32 (z : Z) : Z := z mod 4294967296.

(** [x | y], [x ^ y], [x >>> n] and [Math.imul x y]. *)
Definition js_or (x y : Z) : Z := ToInt32 (Z.lor (ToInt32 x) (ToInt32 y)).
Definition js_xor (x y : Z) : Z := ToInt32 (Z.lxor (ToInt32 x) (ToInt32 y)).
Definition js_and (x y : Z) : Z := ToInt32 (Z.land (ToInt32 x) (ToInt32 y)).
Definition js_ushr (x n : Z) : Z := Z.shiftr (ToUint32 x) (n mod 32).
Definition Math_imul (x y : Z) : Z := ToInt32 (ToInt32 x * ToInt32 y).

(** [x || d] on a possibly undefined number: 0, -0 and NaN are falsy. *)
Definition js_or_default (x : option num) (d : num) : num :=
  match x with
  | None => d
  | Some v => if PrimFloat.is_zero v || PrimFloat.is_nan v then d else v
  end.

(** ** SectorFactory.js *)

(** *** mulberry32

    The closure returned by [mulberry32(a)] owns the cell [a]; one call maps
    the cell to the number returned and the cell's next content. *)
Definition mulberry32 (a : Z) : num * Z :=
  let a := js_or a 0 in
  let a := js_or (a + 1831565813) 0 in
  let t := Math_imul (js_xor a (js_ushr a 15)) (js_or 1 a) in
  let t := js_xor (t + Math_imul (js_xor t (js_ushr t 7)) (js_or 61 t)) t in
  (PrimFloat.div (num_of_Z (js_ushr (js_xor t (js_ushr t 14)) 0)) 4294967296%float, a).

(** *** The page-wide random source

    [Phaser.Display.Color.RandomRGB] and [Math.random] draw from the
    engine's generator, which no seed of the game controls.  A scene carries
    the draws still to come: [am_draw k] is what the k-th call returns. *)
Record Ambient := mkAmbient { am_calls : nat; am_draw : nat -> num }.

Definition Math_random (m : Ambient) : num * Ambient :=
  (am_draw m (am_calls m), mkAmbient (S (am_calls m)) (am_draw m)).

(** [Phaser.Math.Between(min, max)]:
    [Math.floor(Math.random() * (max - min + 1) + min)]. *)
Definition Between (min max : Z) (m : Ambient) : Z * Ambient :=
  let (r, m) := Math_random m in
  (Math_floor (PrimFloat.add (PrimFloat.mul r (num_of_Z (max - min + 1))) (num_of_Z min)), m).

(** [Phaser.Display.Color.RandomRGB().color]: three channels drawn with
    [Between(0, 255)], packed as [r << 16 | g << 8 | b]. *)
Definition RandomRGB_color (m : Ambient) : Z * Ambient :=
  let (r, m) := Between 0 255 m in
  let (g, m) := Between 0 255 m in
  let (b, m) := Between 0 255 m in
  (js_or (js_or (Z.shiftl r 16) (Z.shiftl g 8)) b, m).

(** *** The sector *)

Module Sector.

Record Star := mkStar { x : num; y : num; depth : num }.

Record Planet := mkPlanet { px : num; py : num; scale : num; ptint : Z }.

Record Galaxy := mkGalaxy { gx : num; gy : num; gscale : num; rot : num }.

Record Nebula := mkNebula { nx : num; ny : num; color : Z; alpha : num }.

Record Weights := mkWeights { scout : num; tank : num; pulsar : num }.

Record t := mk {
  name : string;
  stars : list (list Star);
  galaxies : list Galaxy;
  nebulae : list Nebula;
  planets : list Planet;
  belts : list unit;
  stations : list unit;
  anomalies : list unit;
  tint : Z;
  ambient : string;
  encounterWeights : Weights
}.

End Sector.

(** The generator threads the two sources it reads: the cell of its own
    [rand] closure and the page-wide source. *)
Record Src := mkSrc { cell : Z; page_src : Ambient }.

Definition Gen (A : Type) : Type := Src -> A * Src.

Definition ret {A} (v : A) : Gen A := fun s => (v, s).

Definition bind {A B} (c : Gen A) (k : A -> Gen B) : Gen B :=
  fun s => let r := c s in k (fst r) (snd r).

Notation "v <- c ;; k" := (bind c (fun v => k))
  (at level 61, c at next level, right associativity).

Definition rand : Gen num :=
  fun s => let r := mulberry32 (cell s) in (fst r, mkSrc (snd r) (page_src s)).

Definition randomColor : Gen Z :=
  fun s => let r := RandomRGB_color (page_src s) in (fst r, mkSrc (cell s) (snd r)).

(** [for(let i = i0; i < i0 + n; i++) out.push(body(i))]. *)
Fixpoint for_push {A} (body : nat -> Gen A) (i0 n : nat) : Gen (list A) :=
  match n with
  | O => ret []
  | S n' => v <- body i0 ;; vs <- for_push body (S i0) n' ;; ret (v :: vs)
  end.

Definition gen_star (l : nat) (_ : nat) : Gen Sector.Star :=
  x <- rand ;; y <- rand ;;
  ret (Sector.mkStar (x * 2000 - 1000) (y * 2000 - 1000) (0.2 + num_of_nat l * 0.3)).

Definition gen_layer (l : nat) : Gen (list Sector.Star) :=
  for_push (gen_star l) 0 200.

Definition gen_planet (_ : nat) : Gen Sector.Planet :=
  x <- rand ;; y <- rand ;; s <- rand ;; c <- randomColor ;;
  ret (Sector.mkPlanet (x * 1600 - 800) (y * 1200 - 600) (0.5 + s) c).

Definition gen_galaxy (_ : nat) : Gen Sector.Galaxy :=
  x <- rand ;; y <- rand ;; s <- rand ;; r <- rand ;;
  ret (Sector.mkGalaxy (x * 1800 - 900) (y * 1400 - 700) (0.6 + s * 0.5) (r * 360)).

Definition gen_nebula (_ : nat) : Gen Sector.Nebula :=
  x <- rand ;; y <- rand ;; c <- randomColor ;; a <- rand ;;
  ret (Sector.mkNebula (x * 1600 - 800) (y * 1200 - 600) c (0.2 + a * 0.3)).

(** [base + Math.floor(rand()*2)]. *)
Definition gen_count (base : Z) : Gen nat :=
  r <- rand ;; ret (Z.to_nat (base + Math_floor (r * 2))).

Definition sector_name (seed : Z) : string :=
  String.append "Sector " (NilZero.string_of_int (Z.to_int seed)).

Definition default_weights : Sector.Weights := Sector.mkWeights 0.7 0.2 0.1.

Definition gen_sector (seed : Z) : Gen Sector.t :=
  layers <- for_push gen_layer 0 3 ;;
  planetCount <- gen_count 1 ;;
  ps <- for_push gen_planet 0 planetCount ;;
  galaxyCount <- gen_count 0 ;;
  gs <- for_push gen_galaxy 0 galaxyCount ;;
  nebulaCount <- gen_count 1 ;;
  ns <- for_push gen_nebula 0 nebulaCount ;;
  ret (Sector.mk (sector_name seed) layers gs ns ps [] [] [] 16777215 "deep"
                 default_weights).

(** [SectorFactory(seed)], given the state of the page-wide source at the
    call; the source's state after the call is returned with the sector. *)
Definition SectorFactory (seed : Z) (m : Ambient) : Sector.t * Ambient :=
  let r := gen_sector seed (mkSrc seed m) in (fst r, page_src (snd r)).

(** What of a planet and of a nebula the [rand] closure decides. *)
Definition planet_geometry (p : Sector.Planet) : num * num * num :=
  (Sector.px p, Sector.py p, Sector.scale p).

Definition nebula_geometry (n : Sector.Nebula) : num * num * num :=
  (Sector.nx n, Sector.ny n, Sector.alpha n).

(** A page-wide source that cycles through 0, 1/8, ..., 7/8. *)
Definition cycling_ambient : Ambient :=
  mkAmbient 0 (fun k => (num_of_nat (k mod 8) / 8)%float).

(** ** The scene's data *)

(** [window.GFX]; [encounterPeriod] may be missing. *)
Record GFX := mkGFX {
  gfx_bloom : bool;
  gfx_vignette : bool;
  gfx_particles : num;
  gfx_encounterPeriod : option num
}.

(** What the scene reads of the game's [config]: whether it asks for the
    gamepad plugin ([input: { gamepad: true }]).  Without it
    [this.input.gamepad] is undefined. *)
Record GameConfig := mkGameConfig { input_gamepad : bool }.

(** The player sprite with its data [{ hull, shield, discoveries }]. *)
Module Player.

Record t := mk {
  x : num; y : num; vx : num; vy : num;
  hull : Z; shield : bool; discoveries : Z
}.

End Player.

Record Bullet := mkBullet {
  b_id : nat; b_x : num; b_y : num; b_vx : num; b_vy : num;
  b_active : bool; b_visible : bool
}.

Record Enemy := mkEnemy {
  e_id : nat; e_x : num; e_y : num; e_vx : num; e_vy : num;
  e_type : string; e_hp : Z
}.

(** A group of bullets as [physics.add.group] makes it: the members and
    the group's [maxSize], where -1 means no limit. *)
Record Group := mkGroup { children : list Bullet; maxSize : Z }.

Record Sprite := mkSprite {
  sp_key : string; sp_x : num; sp_y : num; sp_scale : num;
  sp_tint : Z; sp_alpha : num; sp_rotation : num
}.

Record Rect := mkRect {
  r_x : num; r_y : num; r_w : num; r_h : num; r_color : Z; r_alpha : num
}.

Record Emitter := mkEmitter { em_quantity : Z; em_speedY : num; em_scale : num }.

Record ScanRing := mkScanRing {
  ring_visible : bool; ring_x : num; ring_y : num; ring_radius : num
}.

(** A pending [time.delayedCall(delay, cb)].  The scene has one callback
    only, the one [shield] registers: destroy the circle, clear the flag. *)
Record TimerEvent := mkTimerEvent {
  te_elapsed : num; te_delay : num; te_circle : num * num
}.

(** [Phaser.Math.RND] is the framework's generator.  A scene carries the
    picks still to come: on its k-th call [weightedPick] returns the member
    at index [rnd_index k], reduced to the array's length. *)
Record RND := mkRND { rnd_calls : nat; rnd_index : nat -> nat }.

Definition weightedPick (arr : list string) (r : RND) : string * RND :=
  (nth (rnd_index r (rnd_calls r) mod List.length arr)%nat arr "undefined",
   mkRND (S (rnd_calls r)) (rnd_index r)).

(** Calls on the framework that the record does not show. *)
Inductive Effect :=
| SetPostPipeline (pipe : string)
| Emit_updateHud (d : option Z) (h : option Z) (sec : option string)
| Emit_photo (on : bool)
| Scene_stop (key : string)
| Scene_start (key : string)
| Scene_pause
| AudioPing
| Tween_scanRing
| AddBullet (id : nat)
| AddEnemy (id : nat)
| DestroyBullet (id : nat)
| DestroyEnemy (id : nat).

(** The play scene.  Bullets and enemies are game objects with an identity;
    they carry an id taken from [nextId] when they are made.  The enemies
    group is made without a size limit and only ever added to or destroyed
    from, so it is kept as the list of its members. *)
Record Scene := mkScene {
  width : num;                       (* this.scale.width *)
  height : num;                      (* this.scale.height *)
  gfx : GFX;                         (* window.GFX *)
  player : Player.t;
  bullets : Group;
  enemies : list Enemy;
  seed : Z;
  sector : Sector.t;
  starGroup : option (list Emitter);
  planets : list Sprite;
  nebulae : list Rect;
  scanRing : ScanRing;
  timer : num;                       (* this.director.timer *)
  photo : bool;
  bloom_intensity : num;             (* the bloom pipeline's intensity *)
  delayed : list TimerEvent;         (* this.time's pending delayed calls *)
  rnd : RND;                         (* Phaser.Math.RND *)
  page : Ambient;                    (* Math.random *)
  nextId : nat;
  effects : list Effect
}.

Definition set_player (v : Player.t) (s : Scene) : Scene :=
  mkScene (width s) (height s) (gfx s) v (bullets s) (enemies s) (seed s)
    (sector s) (starGroup s) (planets s) (nebulae s) (scanRing s) (timer s)
    (photo s) (bloom_intensity s) (delayed s) (rnd s) (page s) (nextId s)
    (effects s).

Definition set_bullets (v : Group) (s : Scene) : Scene :=
  mkScene (width s) (height s) (gfx s) (player s) v (enemies s) (seed s)
    (sector s) (starGroup s) (planets s) (nebulae s) (scanRing s) (timer s)
    (photo s) (bloom_intensity s) (delayed s) (rnd s) (page s) (nextId s)
    (effects s).

Definition set_enemies (v : list Enemy) (s : Scene) : Scene :=
  mkScene (width s) (height s) (gfx s) (player s) (bullets s) v (seed s)
    (sector s) (starGroup s) (planets s) (nebulae s) (scanRing s) (timer s)
    (photo s) (bloom_intensity s) (delayed s) (rnd s) (page s) (nextId s)
    (effects s).

Definition set_seed (v : Z) (s : Scene) : Scene :=
  mkScene (width s) (height s) (gfx s) (player s) (bullets s) (enemies s) v
    (sector s) (starGroup s) (planets s) (nebulae s) (scanRing s) (timer s)
    (photo s) (bloom_intensity s) (delayed s) (rnd s) (page s) (nextId s)
    (effects s).

Definition set_sector (v : Sector.t) (s : Scene) : Scene :=
  mkScene (width s) (height s) (gfx s) (player s) (bullets s) (enemies s)
    (seed s) v (starGroup s) (planets s) (nebulae s) (scanRing s) (timer s)
    (photo s) (bloom_intensity s) (delayed s) (rnd s) (page s) (nextId s)
    (effects s).

Definition set_starGroup (v : option (list Emitter)) (s : Scene) : Scene :=
  mkScene (width s) (height s) (gfx s) (player s) (bullets s) (enemies s)
    (seed s) (sector s) v (planets s) (nebulae s) (scanRing s) (timer s)
    (photo s) (bloom_intensity s) (delayed s) (rnd s) (page s) (nextId s)
    (effects s).

Definition set_planets (v : list Sprite) (s : Scene) : Scene :=
  mkScene (width s) (height s) (gfx s) (player s) (bullets s) (enemies s)
    (seed s) (sector s) (starGroup s) v (nebulae s) (scanRing s) (timer s)
    (photo s) (bloom_intensity s) (delayed s) (rnd s) (page s) (nextId s)
    (effects s).

Definition set_nebulae (v : list Rect) (s : Scene) : Scene :=
  mkScene (width s) (height s) (gfx s) (player s) (bullets s) (enemies s)
    (seed s) (sector s) (starGroup s) (planets s) v (scanRing s) (timer s)
    (photo s) (bloom_intensity s) (delayed s) (rnd s) (page s) (nextId s)
    (effects s).

Definition set_scanRing (v : ScanRing) (s : Scene) : Scene :=
  mkScene (width s) (height s) (gfx s) (player s) (bullets s) (enemies s)
    (seed s) (sector s) (starGroup s) (planets s) (nebulae s) v (timer s)
    (photo s) (bloom_intensity s) (delayed s) (rnd s) (page s) (nextId s)
    (effects s).

Definition set_timer (v : num) (s : Scene) : Scene :=
  mkScene (width s) (height s) (gfx s) (player s) (bullets s) (enemies s)
    (seed s) (sector s) (starGroup s) (planets s) (nebulae s) (scanRing s) v
    (photo s) (bloom_intensity s) (delayed s) (rnd s) (page s) (nextId s)
    (effects s).

Definition set_photo (v : bool) (s : Scene) : Scene :=
  mkScene (width s) (height s) (gfx s) (player s) (bullets s) (enemies s)
    (seed s) (sector s) (starGroup s) (planets s) (nebulae s) (scanRing s)
    (timer s) v (bloom_intensity s) (delayed s) (rnd s) (page s) (nextId s)
    (effects s).

Definition set_bloom_intensity (v : num) (s : Scene) : Scene :=
  mkScene (width s) (height s) (gfx s) (player s) (bullets s) (enemies s)
    (seed s) (sector s) (starGroup s) (planets s) (nebulae s) (scanRing s)
    (timer s) (photo s) v (delayed s) (rnd s) (page s) (nextId s) (effects s).

Definition set_delayed (v : list TimerEvent) (s : Scene) : Scene :=
  mkScene (width s) (height s) (gfx s) (player s) (bullets s) (enemies s)
    (seed s) (sector s) (starGroup s) (planets s) (nebulae s) (scanRing s)
    (timer s) (photo s) (bloom_intensity s) v (rnd s) (page s) (nextId s)
    (effects s).

Definition set_rnd (v : RND) (s : Scene) : Scene :=
  mkScene (width s) (height s) (gfx s) (player s) (bullets s) (enemies s)
    (seed s) (sector s) (starGroup s) (planets s) (nebulae s) (scanRing s)
    (timer s) (photo s) (bloom_intensity s) (delayed s) v (page s) (nextId s)
    (effects s).

Definition set_page (v : Ambient) (s : Scene) : Scene :=
  mkScene (width s) (height s) (gfx s) (player s) (bullets s) (enemies s)
    (seed s) (sector s) (starGroup s) (planets s) (nebulae s) (scanRing s)
    (timer s) (photo s) (bloom_intensity s) (delayed s) (rnd s) v (nextId s)
    (effects s).

Definition set_nextId (v : nat) (s : Scene) : Scene :=
  mkScene (width s) (height s) (gfx s) (player s) (bullets s) (enemies s)
    (seed s) (sector s) (starGroup s) (planets s) (nebulae s) (scanRing s)
    (timer s) (photo s) (bloom_intensity s) (delayed s) (rnd s) (page s) v
    (effects s).

Definition set_effects (v : list Effect) (s : Scene) : Scene :=
  mkScene (width s) (height s) (gfx s) (player s) (bullets s) (enemies s)
    (seed s) (sector s) (starGroup s) (planets s) (nebulae s) (scanRing s)
    (timer s) (photo s) (bloom_intensity s) (delayed s) (rnd s) (page s)
    (nextId s) v.

Definition emit (e : Effect) (s : Scene) : Scene := set_effects (effects s ++ [e]) s.

(** How a method of the scene ends: it returns, or it throws and leaves
    the scene as it was at the throw. *)
Inductive Outcome :=
| Done (s : Scene)
| Threw (s : Scene).

Definition state_of (o : Outcome) : Scene :=
  match o with
  | Done s | Threw s => s
  end.

Definition threw (o : Outcome) : bool :=
  match o with
  | Done _ => false
  | Threw _ => true
  end.

(** The statements after one that may throw run only if it returned. *)
Definition and_then (o : Outcome) (k : Scene -> Outcome) : Outcome :=
  match o with
  | Done s => k s
  | Threw s => Threw s
  end.

Notation "s <-- o ;; k" := (and_then o (fun s => k))
  (at level 61, o at next level, right associativity).

(** What the scene reads from the keyboard and the gamepad in one tick:
    [isDown] of the movement keys, [JustDown] of the action keys, and the
    connected pad, if any. *)
Record Pad := mkPad {
  axis0 : num; axis1 : num; button0 : bool; button2 : bool; button4 : bool
}.

Record Input := mkInput {
  left_down : bool; right_down : bool; up_down : bool; down_down : bool;
  A_down : bool; D_down : bool; W_down : bool; S_down : bool;
  SPACE_just : bool; E_just : bool; SHIFT_just : bool; O_just : bool;
  ESC_just : bool;
  pad : option Pad
}.

(** ** PlayScene.js and EncounterDirector.js *)

Definition with_velocity (vx vy : num) (p : Player.t) : Player.t :=
  Player.mk (Player.x p) (Player.y p) vx vy
            (Player.hull p) (Player.shield p) (Player.discoveries p).

Definition with_hull (h : Z) (p : Player.t) : Player.t :=
  Player.mk (Player.x p) (Player.y p) (Player.vx p) (Player.vy p)
            h (Player.shield p) (Player.discoveries p).

Definition with_shield (b : bool) (p : Player.t) : Player.t :=
  Player.mk (Player.x p) (Player.y p) (Player.vx p) (Player.vy p)
            (Player.hull p) b (Player.discoveries p).

Definition with_discoveries (d : Z) (p : Player.t) : Player.t :=
  Player.mk (Player.x p) (Player.y p) (Player.vx p) (Player.vy p)
            (Player.hull p) (Player.shield p) d.

(** [Phaser.Math.Distance.Between]. *)
Definition Distance_Between (x1 y1 x2 y2 : num) : num :=
  let dx := (x1 - x2)%float in
  let dy := (y1 - y2)%float in
  PrimFloat.sqrt (dx * dx + dy * dy).

(** *** loadSector *)

Definition add_emitter (quantity : Z) (i : nat) : Emitter :=
  mkEmitter quantity (20 * (num_of_nat i + 1)) (0.1 + num_of_nat i * 0.2).

(** One planet sprite and one ring sprite for each planet of the sector;
    the ring's rotation is a [Math.random()] draw. *)
Fixpoint add_planets (ps : list Sector.Planet) (m : Ambient) : list Sprite * Ambient :=
  match ps with
  | [] => ([], m)
  | p :: ps' =>
      let r := Math_random m in
      let planet := mkSprite "planet" (Sector.px p) (Sector.py p) (Sector.scale p)
                             (Sector.ptint p) 1 0 in
      let ring := mkSprite "ring" (Sector.px p) (Sector.py p) (Sector.scale p * 1.2)
                           16777215 0.4 (fst r) in
      let rest := add_planets ps' (snd r) in
      (planet :: ring :: fst rest, snd rest)
  end.

Definition add_nebula (n : Sector.Nebula) : Rect :=
  mkRect (Sector.nx n) (Sector.ny n) 400 300 (Sector.color n) (Sector.alpha n).

(** A star group that exists is destroyed and replaced; [this.planets] and
    [this.nebulae] are assigned fresh groups. *)
Definition loadSector (sd : Z) (s : Scene) : Scene :=
  let made := SectorFactory sd (page s) in
  let sec := fst made in
  let quantity := Math_floor (80 * gfx_particles (gfx s)) in
  let emitters := map (add_emitter quantity) (seq 0 (List.length (Sector.stars sec))) in
  let sprites := add_planets (Sector.planets sec) (snd made) in
  set_nebulae (map add_nebula (Sector.nebulae sec))
    (set_planets (fst sprites)
      (set_starGroup (Some emitters)
        (set_sector sec
          (set_page (snd sprites) s)))).

(** *** The bullet group *)

Definition isFull (g : Group) : bool :=
  if maxSize g =? -1 then false else maxSize g <=? Z.of_nat (List.length (children g)).

(** The members split at the first one that is not active. *)
Fixpoint first_inactive (bs : list Bullet) : option (list Bullet * Bullet * list Bullet) :=
  match bs with
  | [] => None
  | b :: bs' =>
      if b_active b then
        match first_inactive bs' with
        | Some (before, c, after) => Some (b :: before, c, after)
        | None => None
        end
      else Some ([], b, bs')
  end.

(** [group.get(x, y, key)]: the first inactive member, moved to [(x, y)];
    else a new member at [(x, y)], unless the group is full; else [null].
    The result is the member with the members before and after it, and
    whether it was created. *)
Definition Group_get (g : Group) (x y : num) (fresh : nat)
  : option (list Bullet * Bullet * list Bullet * bool) :=
  match first_inactive (children g) with
  | Some (before, b, after) =>
      Some (before, mkBullet (b_id b) x y (b_vx b) (b_vy b) (b_active b) (b_visible b),
            after, false)
  | None =>
      if isFull g then None
      else Some (children g, mkBullet fresh x y 0 0 true true, [], true)
  end.

(** [setActive(true).setVisible(true)], [body.reset(x, y)] and
    [setVelocity(0, -300)]. *)
Definition launch (x y : num) (b : Bullet) : Bullet :=
  mkBullet (b_id b) x y 0 (-300) true true.

Definition fire (s : Scene) : Scene :=
  let x := Player.x (player s) in
  let y := (Player.y (player s) - 20)%float in
  match Group_get (bullets s) x y (nextId s) with
  | None => s
  | Some (before, bullet, after, created) =>
      let s := if created
               then emit (AddBullet (b_id bullet)) (set_nextId (S (nextId s)) s)
               else s in
      let s := set_bullets (mkGroup (before ++ launch x y bullet :: after)
                                    (maxSize (bullets s))) s in
      emit AudioPing s
  end.

(** *** jumpSector, scan, shield *)

Definition next_seed (sd : Z) : Z := Z.rem (sd * 16807) 2147483647.

Definition jumpSector (s : Scene) : Scene :=
  let s := set_seed (next_seed (seed s)) s in
  let s := loadSector (seed s) s in
  emit (Emit_updateHud None None (Some (Sector.name (sector s)))) s.

Definition in_range (s : Scene) (p : Sprite) : bool :=
  (Distance_Between (Player.x (player s)) (Player.y (player s)) (sp_x p) (sp_y p) <? 150)%float.

Definition scan (s : Scene) : Scene :=
  let s := set_scanRing (mkScanRing true (Player.x (player s)) (Player.y (player s)) 10) s in
  let s := emit Tween_scanRing s in
  let found := existsb (in_range s) (planets s) in
  if found then
    let s := set_player (with_discoveries (Player.discoveries (player s) + 1) (player s)) s in
    let s := emit (Emit_updateHud (Some (Player.discoveries (player s))) None None) s in
    if Z.rem (Player.discoveries (player s)) 5 =? 0 then jumpSector s else s
  else s.

Definition shield (s : Scene) : Scene :=
  if Player.shield (player s) then s
  else
    let s := set_player (with_shield true (player s)) s in
    set_delayed (delayed s ++ [mkTimerEvent 0 300 (Player.x (player s), Player.y (player s))]) s.

(** The scene's clock, which the framework advances by the frame's delta: a
    delayed call whose elapsed time reaches its delay runs its callback
    (the circle is destroyed, the flag cleared) and is removed. *)
Definition age (delta : num) (t : TimerEvent) : TimerEvent :=
  mkTimerEvent (te_elapsed t + delta) (te_delay t) (te_circle t).

Definition is_due (t : TimerEvent) : bool := (te_delay t <=? te_elapsed t)%float.

Definition clock_update (delta : num) (s : Scene) : Scene :=
  let aged := map (age delta) (delayed s) in
  let s := set_delayed (filter (fun t => negb (is_due t)) aged) s in
  if existsb is_due aged then set_player (with_shield false (player s)) s else s.

(** *** Collision callbacks *)

Definition destroy_bullet (id : nat) (s : Scene) : Scene :=
  if existsb (fun b => Nat.eqb (b_id b) id) (children (bullets s)) then
    emit (DestroyBullet id)
      (set_bullets (mkGroup (filter (fun b => negb (Nat.eqb (b_id b) id)) (children (bullets s)))
                            (maxSize (bullets s))) s)
  else s.

Definition destroy_enemy (id : nat) (s : Scene) : Scene :=
  if existsb (fun e => Nat.eqb (e_id e) id) (enemies s) then
    emit (DestroyEnemy id)
      (set_enemies (filter (fun e => negb (Nat.eqb (e_id e) id)) (enemies s)) s)
  else s.

Definition find_enemy (id : nat) (s : Scene) : option Enemy :=
  find (fun e => Nat.eqb (e_id e) id) (enemies s).

Definition set_hp (id : nat) (hp : Z) (e : Enemy) : Enemy :=
  if Nat.eqb (e_id e) id
  then mkEnemy (e_id e) (e_x e) (e_y e) (e_vx e) (e_vy e) (e_type e) hp
  else e.

Definition gameOver (s : Scene) : Scene :=
  emit (Scene_start "Title") (emit (Scene_stop "HUD") s).

Definition playerHit (enemy : nat) (s : Scene) : Scene :=
  let s := destroy_enemy enemy s in
  if Player.shield (player s) then s
  else
    let s := set_player (with_hull (Player.hull (player s) - 1) (player s)) s in
    let s := emit (Emit_updateHud None (Some (Player.hull (player s))) None) s in
    if Player.hull (player s) <=? 0 then gameOver s else s.

Definition hitEnemy (bullet enemy : nat) (s : Scene) : Scene :=
  let s := destroy_bullet bullet s in
  match find_enemy enemy s with
  | None => s
  | Some e =>
      let hp := e_hp e - 1 in
      let s := set_enemies (map (set_hp enemy hp) (enemies s)) s in
      if hp <=? 0 then
        let s := destroy_enemy enemy s in
        let s := set_player (with_discoveries (Player.discoveries (player s) + 1) (player s)) s in
        emit (Emit_updateHud (Some (Player.discoveries (player s))) None None) s
      else s
  end.

Definition bullet_alive (id : nat) (s : Scene) : bool :=
  existsb (fun b => Nat.eqb (b_id b) id) (children (bullets s)).

Definition enemy_alive (id : nat) (s : Scene) : bool :=
  existsb (fun e => Nat.eqb (e_id e) id) (enemies s).

(** The two overlap colliders of [create], run by the physics world on
    the pairs it finds overlapping in a step: bullets against enemies
    first, then the player against enemies.  A pair with a destroyed
    member is skipped. *)
Definition collide (hits : list (nat * nat)) (touching : list nat) (s : Scene) : Scene :=
  let s := fold_left (fun s be =>
             if bullet_alive (fst be) s && enemy_alive (snd be) s
             then hitEnemy (fst be) (snd be) s else s) hits s in
  fold_left (fun s e => if enemy_alive e s then playerHit e s else s) touching s.

Definition togglePhoto (s : Scene) : Scene :=
  let s := set_photo (negb (photo s)) s in
  let s := set_bloom_intensity (if photo s then 1.2 else 0.6)%float s in
  emit (Emit_photo (photo s)) s.

(** *** EncounterDirector *)

(** The i-th sprite of a formation of the given type. *)
Definition spawn_enemy (w : num) (type : string) (id0 i : nat) : Enemy :=
  mkEnemy (id0 + i) (w / 2 + (num_of_nat i - 1) * 40) (-50) 0 (40 + num_of_nat i * 10)
          type (if String.eqb type "tank" then 4 else 2).

(** What adding a sprite to an Arcade physics group does to it: the
    group's create callback gives the body the group's defaults, among
    them [setVelocityX(0)] and [setVelocityY(0)].  [scene.enemies] is such
    a group ([physics.add.group()], line 19 of PlayScene.js). *)
Definition physics_group_add (e : Enemy) : Enemy :=
  mkEnemy (e_id e) (e_x e) (e_y e) 0 0 (e_type e) (e_hp e).

(** [spawn()]: one pick, three sprites collected in a local group (a plain
    [add.group()], which leaves them as they are), then
    [scene.enemies.addMultiple] on the members of the local group. *)
Definition spawn (s : Scene) : Scene :=
  let w := width s in
  let picked := weightedPick ["scout"; "tank"; "pulsar"] (rnd s) in
  let group := map (spawn_enemy w (fst picked) (nextId s)) (seq 0 3) in
  let s := set_rnd (snd picked) s in
  let s := set_nextId (nextId s + 3) s in
  let s := set_effects (effects s ++ map (fun e => AddEnemy (e_id e)) group) s in
  set_enemies (enemies s ++ map physics_group_add group) s.

(** [update(time, delta)] of the director. *)
Definition director_update (delta : num) (s : Scene) : Scene :=
  let t := (timer s + delta)%float in
  let period := js_or_default (gfx_encounterPeriod (gfx s)) 15000 in
  if (period <? t)%float then spawn (set_timer 0 s) else set_timer t s.

(** *** update *)

(** The velocity the movement keys ask for. *)
Definition keyboard_velocity (inp : Input) : num * num :=
  let speed := 200%float in
  (if left_down inp || A_down inp then (- speed)%float
   else if right_down inp || D_down inp then speed else 0%float,
   if up_down inp || W_down inp then (- speed)%float
   else if down_down inp || S_down inp then speed else 0%float).

(** The block guarded by [if(this.pad)].  The axes are read into the local
    velocity and button 0 fires.  The next line evaluates
    [Phaser.Input.Gamepad.Configs.XBOX_ONE.LB]: the framework's [Configs]
    has no [XBOX_ONE], so the property access on [undefined] throws, and
    the pad's shield and scan, and the rest of the tick, are not reached. *)
Definition pad_actions (inp : Input) (s : Scene) : Outcome :=
  match pad inp with
  | None => Done s
  | Some pd => Threw (if button0 pd then fire s else s)
  end.

(** [player.setVelocity(vx, vy)] with the local velocity: the keys decide,
    and the axes of a connected pad replace what they gave.  ([update]
    gets here only with no pad connected.) *)
Definition movement (inp : Input) (s : Scene) : Scene :=
  let speed := 200%float in
  let v := match pad inp with
           | None => keyboard_velocity inp
           | Some pd => (axis0 pd * speed, axis1 pd * speed)%float
           end in
  set_player (with_velocity (fst v) (snd v) (player s)) s.

(** The [JustDown] tests of the action keys, in the order of the source. *)
Definition keyboard_actions (inp : Input) (s : Scene) : Scene :=
  let s := if SPACE_just inp then fire s else s in
  let s := if E_just inp then scan s else s in
  let s := if SHIFT_just inp then shield s else s in
  let s := if O_just inp then togglePhoto s else s in
  if ESC_just inp then emit Scene_pause s else s.

(** The test of the cleanup's callback, [b.y < -50]. *)
Definition off (b : Bullet) : bool := (b_y b <? -50)%float.

(** [children.iterate(cb)] of the bullets: the framework's loop runs [i]
    from 0 to the length the entries had when it started, over the live
    entries.  [b.destroy()] removes the bullet from the entries at once,
    so those after it move down one place and the next one is passed
    over; an index past the end of what is left gives [undefined], and
    [b.y] throws.  [n] is the number of indices still to visit. *)
Fixpoint iterate_cleanup (n i : nat) (s : Scene) : Outcome :=
  match n with
  | O => Done s
  | S n' =>
      match nth_error (children (bullets s)) i with
      | None => Threw s
      | Some b =>
          iterate_cleanup n' (S i)
            (if off b then destroy_bullet (b_id b) s else s)
      end
  end.

Definition bullets_cleanup (s : Scene) : Outcome :=
  iterate_cleanup (List.length (children (bullets s))) 0 s.

(** [update(time, delta)].  The line that sets the velocity comes after the
    pad's block, so a tick with a pad connected does not reach it. *)
Definition update (inp : Input) (delta : num) (s : Scene) : Outcome :=
  s <-- pad_actions inp s ;;
  let s := movement inp s in
  let s := keyboard_actions inp s in
  s <-- bullets_cleanup s ;;
  Done (director_update delta s).

(** *** create *)

Definition no_sector : Sector.t :=
  Sector.mk "" [] [] [] [] [] [] [] 0 "" (Sector.mkWeights 0 0 0).

(** The scene object before [create] has run its body: the player sprite
    at its start position, the two empty groups, no sector yet. *)
Definition blank (w h : num) (g : GFX) (r : RND) (m : Ambient) : Scene :=
  mkScene w h g (Player.mk (w / 2) (h * 0.7) 0 0 3 false 0) (mkGroup [] (-1)) []
          0 no_sector None [] [] (mkScanRing false 0 0 10) 0 false 0.6 [] r m O [].

(** [now] is [Date.now()].  Line 36 calls [this.input.gamepad.on]: without
    the gamepad plugin that is a call on [undefined], which throws before
    the colliders are registered and before the first [updateHud]. *)
Definition create (cfg : GameConfig) (w h : num) (g : GFX) (now : Z) (r : RND) (m : Ambient)
  : Outcome :=
  let s := blank w h g r m in
  let s := if gfx_bloom g then emit (SetPostPipeline "bloom") s else s in
  let s := if gfx_vignette g then emit (SetPostPipeline "vignette") s else s in
  let s := set_seed (js_and now 65535) s in
  let s := loadSector (seed s) s in
  if input_gamepad cfg
  then Done (emit (Emit_updateHud (Some 0) (Some 3) (Some (Sector.name (sector s)))) s)
  else Threw s.

(** ** Definitions used by the statements *)

(** Two generator computations agree on what [f] shows of their results,
    and on the closure's cell, whenever they start from the same cell. *)
Definition agree {A B} (f : A -> B) (c1 c2 : Gen A) : Prop :=
  forall s1 s2, cell s1 = cell s2 ->
    f (fst (c1 s1)) = f (fst (c2 s2)) /\ cell (snd (c1 s1)) = cell (snd (c2 s2)).

(** Everything of a sector but the planets' tints and the nebulae's colors. *)
Definition seeded_part (sec : Sector.t) :=
  (Sector.name sec, Sector.stars sec, Sector.galaxies sec,
   map planet_geometry (Sector.planets sec),
   map nebula_geometry (Sector.nebulae sec),
   (Sector.belts sec, Sector.stations sec, Sector.anomalies sec),
   (Sector.tint sec, Sector.ambient sec, Sector.encounterWeights sec)).

(** The encounter period the director reads in a tick. *)
Definition period (s : Scene) : num := js_or_default (gfx_encounterPeriod (gfx s)) 15000.

(** The director ticked with each delta of a list in turn. *)
Definition run_director (ds : list num) (s : Scene) : Scene :=
  fold_left (fun s d => director_update d s) ds s.

(** The batch a spawn adds to a scene. *)
Definition batch (s : Scene) : list Enemy :=
  let type := fst (weightedPick ["scout"; "tank"; "pulsar"] (rnd s)) in
  map (fun i => mkEnemy (nextId s + i) (width s / 2 + (num_of_nat i - 1) * 40) (-50) 0 0
                        type (if String.eqb type "tank" then 4 else 2))
      [0; 1; 2]%nat.

(** The scene's clock advanced by each delta of a list in turn. *)
Definition run_clock (ds : list num) (s : Scene) : Scene :=
  fold_left (fun s d => clock_update d s) ds s.

(** The elapsed time a delayed call has after each of the deltas, when it
    starts from [acc]. *)
Fixpoint elapsed_after (acc : num) (ds : list num) : list num :=
  match ds with
  | [] => []
  | d :: ds' => (acc + d)%float :: elapsed_after (acc + d) ds'
  end.

(** A delayed call of 300 ms has run by the end of the deltas. *)
Definition expired (ds : list num) : bool :=
  existsb (fun e => (300 <=? e)%float) (elapsed_after 0 ds).

(** The number of times the scene has asked for the Title scene. *)
Definition game_overs (s : Scene) : nat :=
  List.length (filter (fun e => match e with
                                | Scene_start key => String.eqb key "Title"
                                | _ => false
                                end) (effects s)).


(** A scene function that leaves the director's timer, the enemies and
    the player's velocity alone. *)
Definition keeps_course (f : Scene -> Scene) : Prop :=
  forall s, timer (f s) = timer s /\ enemies (f s) = enemies s /\
            Player.vx (player (f s)) = Player.vx (player s) /\
            Player.vy (player (f s)) = Player.vy (player s).

(** The effects an action of the tick may have. *)
Definition action_effect (e : Effect) : bool :=
  match e with
  | Emit_updateHud _ _ _ | Emit_photo _ | Scene_pause | AudioPing
  | Tween_scanRing | AddBullet _ => true
  | _ => false
  end.

(** No member of the group is inactive. *)
Definition all_active (g : Group) : bool := forallb b_active (children g).


Definition with_gamepad : GameConfig := mkGameConfig true.

(** The [window.GFX] of main.js, a generator that always picks the first
    member, and a session started at [Date.now() = 1000] on an 800 x 600
    canvas, with the gamepad plugin, so that [create] completes. *)
Definition gfx0 : GFX := mkGFX true true 1 (Some 15000%float).

Definition rnd0 : RND := mkRND 0 (fun _ => O).

Definition scene0 : Scene :=
  state_of (create with_gamepad 800 600 gfx0 1000 rnd0 cycling_ambient).

(** The physics step has moved the player to [(x, y)]. *)
Definition player_at (x y : num) (s : Scene) : Scene :=
  set_player (Player.mk x y (Player.vx (player s)) (Player.vy (player s))
                        (Player.hull (player s)) (Player.shield (player s))
                        (Player.discoveries (player s))) s.

(** One shot that hits: a bullet is fired and the world reports it
    overlapping the enemy [e]. *)
Definition shoot (e : nat) (s : Scene) : Scene :=
  collide [(nextId s, e)] [] (fire s).


(** A scene function that only appends effects satisfying [P]. *)
Definition appends (P : Effect -> bool) (f : Scene -> Scene) : Prop :=
  forall s, exists l, effects (f s) = effects s ++ l /\ forallb P l = true.

(** A run of shots that hit. *)
Definition shots (es : list nat) (s : Scene) : Scene :=
  fold_left (fun s e => shoot e s) es s.


(** The sample session after two batches of scouts, four of them killed
    with two shots each and a fifth hit once. *)
Definition four_kills : Scene :=
  shots [9; 9; 10]%nat
    (director_update 15001
       (shots [0; 0; 1; 1; 2; 2]%nat (director_update 15001 scene0))).

(** The sample session with the player, at hull 1 after touching the first
    two enemies of the first batch in one step, between the first two
    enemies of the second batch. *)
Definition between_two_enemies : Scene :=
  director_update 15001
    (collide [] [0; 1]%nat (player_at 380 (-50) (director_update 15001 scene0))).

(** ** Definitions used by the further properties *)

(** The cell of a [mulberry32] closure after [n] draws. *)
Definition cell_after (n : nat) (a : Z) : Z :=
  Nat.iter n (fun c => snd (mulberry32 c)) a.

(** What a generator computation does to the page-wide source: it leaves
    the draws to come alone and takes some number of them; [P v n] relates
    the result [v] to that number. *)
Definition takes {A} (c : Gen A) (P : A -> nat -> Prop) : Prop :=
  forall s,
    am_draw (page_src (snd (c s))) = am_draw (page_src s) /\
    exists n, am_calls (page_src (snd (c s))) = (am_calls (page_src s) + n)%nat /\
              P (fst (c s)) n.

(** The shape every generated sector has. *)
Definition sector_shape (seed : Z) (sec : Sector.t) : Prop :=
  Sector.name sec = sector_name seed /\
  (exists l0 l1 l2,
     Sector.stars sec = [l0; l1; l2] /\
     List.length l0 = 200%nat /\ List.length l1 = 200%nat /\ List.length l2 = 200%nat /\
     Forall (fun st => Sector.depth st = 0.2%float) l0 /\
     Forall (fun st => Sector.depth st = 0.5%float) l1 /\
     Forall (fun st => Sector.depth st = 0.8%float) l2) /\
  Sector.belts sec = [] /\ Sector.stations sec = [] /\ Sector.anomalies sec = [] /\
  Sector.tint sec = 16777215 /\ Sector.ambient sec = "deep" /\
  Sector.encounterWeights sec = Sector.mkWeights 0.7 0.2 0.1.

(** ** HUDScene.js *)

(** What the HUD shows: the three texts and whether the HUD and the help
    are hidden. *)
Record Hud := mkHud {
  disc_text : string; hull_text : string; sector_text : string;
  hud_hidden : bool; help_hidden : bool
}.

(** The text a number gets when it is assigned to [textContent]. *)
Definition text_of_Z (z : Z) : string := NilZero.string_of_int (Z.to_int z).

(** The listener of [updateHud]: each field that is defined replaces its
    text. *)
Definition on_updateHud (d h : option Z) (sec : option string) (u : Hud) : Hud :=
  mkHud (match d with Some v => text_of_Z v | None => disc_text u end)
        (match h with Some v => text_of_Z v | None => hull_text u end)
        (match sec with Some v => v | None => sector_text u end)
        (hud_hidden u) (help_hidden u).

(** The listener of [photo]: [classList.toggle('hidden', on)] on both
    elements. *)
Definition on_photo (on : bool) (u : Hud) : Hud :=
  mkHud (disc_text u) (hull_text u) (sector_text u) on on.

Definition hud_receive (u : Hud) (e : Effect) : Hud :=
  match e with
  | Emit_updateHud d h sec => on_updateHud d h sec u
  | Emit_photo on => on_photo on u
  | _ => u
  end.

(** The HUD after the events of a log, in their order. *)
Definition hud_replay (log : list Effect) (u : Hud) : Hud := fold_left hud_receive log u.

(** ** Sessions *)

(** The integration of the physics world, which is the framework's: the
    player gets a position and a velocity, every bullet and every enemy a
    position; nothing else changes. *)
Definition integrate (pl : num * num * num * num) (bl : Bullet -> num * num)
           (en : Enemy -> num * num) (s : Scene) : Scene :=
  let '(x, y, vx, vy) := pl in
  let p := player s in
  let s := set_player (Player.mk x y vx vy (Player.hull p) (Player.shield p)
                                 (Player.discoveries p)) s in
  let s := set_bullets
             (mkGroup (map (fun b => mkBullet (b_id b) (fst (bl b)) (snd (bl b))
                                              (b_vx b) (b_vy b) (b_active b) (b_visible b))
                           (children (bullets s)))
                      (maxSize (bullets s))) s in
  set_enemies (map (fun e => mkEnemy (e_id e) (fst (en e)) (snd (en e))
                                     (e_vx e) (e_vy e) (e_type e) (e_hp e))
                   (enemies s)) s.

(** What happens to a scene between its creation and its end: the scene's
    own [update], the collision callbacks the world runs, the scene's
    clock, and the world's integration. *)
Inductive Step :=
| Tick (inp : Input) (delta : num)
| Overlaps (hits : list (nat * nat)) (touching : list nat)
| Time (delta : num)
| Motion (pl : num * num * num * num) (bl : Bullet -> num * num) (en : Enemy -> num * num).

Definition step (s : Scene) (st : Step) : Scene :=
  match st with
  | Tick inp delta => state_of (update inp delta s)
  | Overlaps hits touching => collide hits touching s
  | Time delta => clock_update delta s
  | Motion pl bl en => integrate pl bl en s
  end.

Definition run (steps : list Step) (s : Scene) : Scene := fold_left step steps s.

Definition sprite_at (p : Sprite) : num * num := (sp_x p, sp_y p).

Definition planet_at (p : Sector.Planet) : num * num := (Sector.px p, Sector.py p).

(** What holds throughout a session of the player, the pending delayed
    calls, the enemies and the bullets. *)
Record steady (s : Scene) : Prop := mkSteady {
  steady_shield :
    (Player.shield (player s) = false /\ delayed s = []) \/
    (Player.shield (player s) = true /\ exists t, delayed s = [t]);
  steady_enemies :
    Forall (fun e => 1 <= e_hp e <= 4 /\
                     (e_type e = "scout" \/ e_type e = "tank" \/ e_type e = "pulsar"))
           (enemies s);
  steady_bullets : all_active (bullets s) = true /\ maxSize (bullets s) = -1;
  steady_counters : 0 <= Player.discoveries (player s) /\ Player.hull (player s) <= 3;
  steady_bullet_ids :
    NoDup (map b_id (children (bullets s))) /\
    Forall (fun b => (b_id b < nextId s)%nat) (children (bullets s));
  steady_enemy_ids :
    NoDup (map e_id (enemies s)) /\
    Forall (fun e => (e_id e < nextId s)%nat) (enemies s)
}.

(** What holds of a scene throughout a session: the seed is in the range
    of the derivation, the sector is one made for the seed, the planet
    sprites and the nebula rectangles are those of the sector. *)
Record good (s : Scene) : Prop := mkGood {
  good_seed : 0 <= seed s < 2147483647;
  good_sector : sector_shape (seed s) (sector s);
  good_planets :
    map sprite_at (planets s)
    = flat_map (fun p => [planet_at p; planet_at p]) (Sector.planets (sector s));
  good_nebulae : nebulae s = map add_nebula (Sector.nebulae (sector s));
  good_steady : steady s
}.

(** The HUD shows the scene's current values. *)
Definition shown (s : Scene) (u : Hud) : Prop :=
  disc_text u = text_of_Z (Player.discoveries (player s)) /\
  hull_text u = text_of_Z (Player.hull (player s)) /\
  sector_text u = Sector.name (sector s) /\
  hud_hidden u = photo s /\ help_hidden u = photo s.

(** How a scene relates to a later one. *)
Definition evolves (s s' : Scene) : Prop :=
  (good s -> good s') /\
  Player.discoveries (player s) <= Player.discoveries (player s') /\
  Player.hull (player s') <= Player.hull (player s) /\
  exists l, effects s' = effects s ++ l /\
            forall u, shown s u -> shown s' (hud_replay l u).

(** An effect the HUD does not listen to. *)
Definition quiet (e : Effect) : bool :=
  match e with
  | Emit_updateHud _ _ _ | Emit_photo _ => false
  | _ => true
  end.

(** A session: the scene as [create] makes it the first time it runs
    after the game has booted, under a config with the gamepad plugin
    (without it [create] throws and nothing is played); then any steps.
    A tick that throws leaves the scene as it was at the throw. *)
Definition session (w h : num) (g : GFX) (now : Z) (r : RND) (m : Ambient)
           (steps : list Step) : Scene :=
  run steps (state_of (create with_gamepad w h g now r m)).

(** Is the planet strictly within 150 of the player? *)
Definition near (s : Scene) (p : Sector.Planet) : bool :=
  (Distance_Between (Player.x (player s)) (Player.y (player s))
                    (Sector.px p) (Sector.py p) <? 150)%float.

(** An effect that neither stops nor starts a scene. *)
Definition peaceful (e : Effect) : bool :=
  match e with
  | Scene_start _ | Scene_stop _ => false
  | _ => true
  end.

(** What the input handling and the cleanup of a tick leave alone: the
    player's position, hull and discoveries aside from scans, the enemies,
    and the shield unless they raise it, with its one delayed call. *)
Definition calm (s s' : Scene) : Prop :=
  Player.x (player s') = Player.x (player s) /\
  Player.y (player s') = Player.y (player s) /\
  Player.hull (player s') = Player.hull (player s) /\
  enemies s' = enemies s /\
  (exists l, effects s' = effects s ++ l /\ forallb peaceful l = true) /\
  ((Player.shield (player s') = Player.shield (player s) /\ delayed s' = delayed s) \/
   (Player.shield (player s) = false /\ Player.shield (player s') = true /\
    delayed s' = delayed s
                 ++ [mkTimerEvent 0 300 (Player.x (player s), Player.y (player s))])).

(** Between two scenes no enemy and no bullet has come back, and the
    seed and the sector are the same. *)
Definition fading (s s' : Scene) : Prop :=
  (forall x, enemy_alive x s' = true -> enemy_alive x s = true) /\
  (forall b, bullet_alive b s' = true -> bullet_alive b s = true) /\
  seed s' = seed s /\ sector s' = sector s.

(** Between two scenes the hull has dropped by at most [h] and the
    discoveries have grown by at most [d]. *)
Definition toll (h d : Z) (s s' : Scene) : Prop :=
  Player.hull (player s) - h <= Player.hull (player s') /\
  Player.discoveries (player s') <= Player.discoveries (player s) + d.

(** The two callbacks as the colliders guard them. *)
Definition on_hit (s : Scene) (be : nat * nat) : Scene :=
  if bullet_alive (fst be) s && enemy_alive (snd be) s
  then hitEnemy (fst be) (snd be) s else s.

Definition on_touch (s : Scene) (e : nat) : Scene :=
  if enemy_alive e s then playerHit e s else s.

(** The hull is spent exactly when the Title scene has been asked for. *)
Definition vital (s : Scene) : Prop :=
  (1 <= Player.hull (player s) /\ game_overs s = 0%nat) \/
  (Player.hull (player s) <= 0 /\ (1 <= game_overs s)%nat).

(** What a listener shows is the current value, or it is what it showed
    when it began to listen and the value is what it was then. *)
Definition current_or_untouched {A} (text text0 value value0 : A) : Prop :=
  text = value \/ (text = text0 /\ value = value0).

(** Two HUDs that hear the same events agree on a field, or neither has
    had it written. *)
Definition same_or_kept {A} (f : Hud -> A) (l : list Effect) (u u' : Hud) : Prop :=
  f (hud_replay l u) = f (hud_replay l u') \/
  (f (hud_replay l u) = f u /\ f (hud_replay l u') = f u').

(** The sample session after the first batch, with one bullet fired. *)
Definition first_shot : Scene := fire (director_update 15001 scene0).

(** The sample session with the player flown above the top edge and two
    bullets fired from there, both above the bound of the cleanup; and a
    tick in which no key is down and no pad is connected. *)
Definition two_shots_above : Scene := Nat.iter 2 fire (player_at 400 (-40) scene0).

Definition no_keys : Input :=
  mkInput false false false false false false false false
          false false false false false None.

(** * Properties *)

(** ** The sector generator *)

Section Agreement.

Context {A B : Type}.

Lemma agree_ret (f : A -> B) (v1 v2 : A) :
  f v1 = f v2 -> agree f (ret v1) (ret v2).
Proof. intros Hf s1 s2 Hc; cbn; auto. Qed.

Lemma agree_bind {C D : Type} (g : C -> D) (f : A -> B) (c1 c2 : Gen C) (k1 k2 : C -> Gen A) :
  agree g c1 c2 ->
  (forall v1 v2, g v1 = g v2 -> agree f (k1 v1) (k2 v2)) ->
  agree f (bind c1 k1) (bind c2 k2).
Proof.
  intros Hc Hk s1 s2 Hs. unfold bind; cbv zeta.
  destruct (Hc s1 s2 Hs) as [Hv Hs'].
  exact (Hk _ _ Hv _ _ Hs').
Qed.

End Agreement.

Lemma agree_rand : agree (fun v : num => v) rand rand.
Proof. intros s1 s2 Hc; unfold rand; cbn; rewrite Hc; auto. Qed.

Lemma agree_randomColor : agree (fun _ : Z => tt) randomColor randomColor.
Proof. intros s1 s2 Hc; unfold randomColor; cbn; auto. Qed.

Lemma agree_for_push {A B} (g : A -> B) (body : nat -> Gen A) :
  (forall i, agree g (body i) (body i)) ->
  forall n i0, agree (map g) (for_push body i0 n) (for_push body i0 n).
Proof.
  intros Hbody; induction n as [|n IH]; intros i0; cbn [for_push].
  - now apply agree_ret.
  - apply agree_bind with (g := g); [apply Hbody|]; intros v1 v2 Hv.
    apply agree_bind with (g := map g); [apply IH|]; intros vs1 vs2 Hvs.
    apply agree_ret; cbn; congruence.
Qed.

(** A draw of [rand] followed by a continuation that is given the draw. *)
Ltac draw :=
  apply agree_bind with (g := fun v : num => v); [apply agree_rand|];
  intros ? ? <-.

Ltac paint :=
  apply agree_bind with (g := fun _ : Z => tt); [apply agree_randomColor|];
  intros ? ? _.

Lemma agree_gen_star l i : agree (fun v => v) (gen_star l i) (gen_star l i).
Proof. unfold gen_star; draw; draw; now apply agree_ret. Qed.

Lemma agree_gen_layer l : agree (fun v => v) (gen_layer l) (gen_layer l).
Proof.
  intros s1 s2 Hc.
  destruct (agree_for_push (fun v => v) (gen_star l) (agree_gen_star l) 200 0 s1 s2 Hc)
    as [Hv Hs].
  rewrite !map_id in Hv; auto.
Qed.

Lemma agree_gen_planet i : agree planet_geometry (gen_planet i) (gen_planet i).
Proof. unfold gen_planet; draw; draw; draw; paint; now apply agree_ret. Qed.

Lemma agree_gen_galaxy i : agree (fun v => v) (gen_galaxy i) (gen_galaxy i).
Proof. unfold gen_galaxy; draw; draw; draw; draw; now apply agree_ret. Qed.

Lemma agree_gen_nebula i : agree nebula_geometry (gen_nebula i) (gen_nebula i).
Proof. unfold gen_nebula; draw; draw; paint; draw; now apply agree_ret. Qed.

Lemma agree_gen_count base : agree (fun v => v) (gen_count base) (gen_count base).
Proof. unfold gen_count; draw; now apply agree_ret. Qed.

Lemma agree_gen_sector seed : agree seeded_part (gen_sector seed) (gen_sector seed).
Proof.
  unfold gen_sector.
  apply agree_bind with (g := map (fun v : list Sector.Star => v));
    [apply agree_for_push, agree_gen_layer|]; intros l1 l2 Hl; rewrite !map_id in Hl.
  apply agree_bind with (g := fun v : nat => v); [apply agree_gen_count|]; intros pc ? <-.
  apply agree_bind with (g := map planet_geometry);
    [apply agree_for_push, agree_gen_planet|]; intros p1 p2 Hp.
  apply agree_bind with (g := fun v : nat => v); [apply agree_gen_count|]; intros gc ? <-.
  apply agree_bind with (g := map (fun v : Sector.Galaxy => v));
    [apply agree_for_push, agree_gen_galaxy|]; intros g1 g2 Hg; rewrite !map_id in Hg.
  apply agree_bind with (g := fun v : nat => v); [apply agree_gen_count|]; intros nc ? <-.
  apply agree_bind with (g := map nebula_geometry);
    [apply agree_for_push, agree_gen_nebula|]; intros n1 n2 Hn.
  apply agree_ret; unfold seeded_part; cbn; congruence.
Qed.

Lemma fst_repack (r : Sector.t * Src) :
  fst (let r0 := r in (fst r0, page_src (snd r0))) = fst r.
Proof. reflexivity. Qed.

Lemma fst_SectorFactory (seed : Z) (m : Ambient) :
  fst (SectorFactory seed m) = fst (gen_sector seed (mkSrc seed m)).
Proof. exact (fst_repack (gen_sector seed (mkSrc seed m))). Qed.

Lemma seeded_part_inv (a b : Sector.t) :
  seeded_part a = seeded_part b ->
  Sector.name a = Sector.name b /\
  Sector.stars a = Sector.stars b /\
  Sector.galaxies a = Sector.galaxies b /\
  map planet_geometry (Sector.planets a) = map planet_geometry (Sector.planets b) /\
  map nebula_geometry (Sector.nebulae a) = map nebula_geometry (Sector.nebulae b).
Proof.
  destruct a, b; unfold seeded_part; cbn.
  intros H; injection H; intros; repeat split; assumption.
Qed.

(** C2, as the code has it.  For every seed, two calls of [SectorFactory]
    yield the same name, the same three star layers, the same galaxies, and
    the same planets and nebulae up to tint and color (equal counts, equal
    x, y and scale, equal x, y and alpha), whatever the state of the
    page-wide random source at either call.  Tint and color are drawn from
    that source and are not decided by the seed. *)
Theorem SectorFactory_seeded_part_deterministic (seed : Z) (m1 m2 : Ambient) :
  let s1 := fst (SectorFactory seed m1) in
  let s2 := fst (SectorFactory seed m2) in
  Sector.name s1 = Sector.name s2 /\
  Sector.stars s1 = Sector.stars s2 /\
  Sector.galaxies s1 = Sector.galaxies s2 /\
  map planet_geometry (Sector.planets s1) = map planet_geometry (Sector.planets s2) /\
  map nebula_geometry (Sector.nebulae s1) = map nebula_geometry (Sector.nebulae s2).
Proof.
  intros s1 s2; apply seeded_part_inv.
  subst s1 s2; rewrite !fst_SectorFactory.
  now destruct (agree_gen_sector seed (mkSrc seed m1) (mkSrc seed m2) eq_refl).
Qed.

Lemma differ_by_first_tint (a b : list Sector.Planet) (ta tb : Z) :
  hd 0 (map Sector.ptint a) = ta -> hd 0 (map Sector.ptint b) = tb -> ta <> tb -> a <> b.
Proof. intros <- <- Hne ->; now apply Hne. Qed.

(** C2 fails as stated: two successive calls with seed 1000, the second
    on the page-wide source as the first left it, give planets of
    different tints. *)
Lemma SectorFactory_tint_not_deterministic :
  let first := SectorFactory 1000 cycling_ambient in
  let second := SectorFactory 1000 (snd first) in
  Sector.planets (fst first) <> Sector.planets (fst second).
Proof.
  cbv zeta.
  apply (differ_by_first_tint _ _ 8256 8429760);
    [vm_compute; reflexivity | vm_compute; reflexivity | discriminate].
Qed.

(** The sector of seed 1000: three layers of 200 stars, two planets, no
    galaxy, two nebulae; the seed derived from 1000 is 16807000. *)
Example sector_1000 :
  let sec := fst (SectorFactory 1000 cycling_ambient) in
  map (@List.length _) (Sector.stars sec) = [200; 200; 200]%nat /\
  List.length (Sector.planets sec) = 2%nat /\
  List.length (Sector.galaxies sec) = 0%nat /\
  List.length (Sector.nebulae sec) = 2%nat /\
  Sector.name sec = "Sector 1000" /\
  next_seed 1000 = 16807000.
Proof. vm_compute; repeat split. Qed.

(** ** The encounter director *)

Lemma spawn_enemies (s : Scene) : enemies (spawn s) = enemies s ++ batch s.
Proof. reflexivity. Qed.

Lemma spawn_rnd_calls (s : Scene) : rnd_calls (rnd (spawn s)) = S (rnd_calls (rnd s)).
Proof. reflexivity. Qed.

Lemma batch_length (s : Scene) : List.length (batch s) = 3%nat.
Proof. reflexivity. Qed.

Lemma weightedPick_member (r : RND) :
  In (fst (weightedPick ["scout"; "tank"; "pulsar"] r)) ["scout"; "tank"; "pulsar"].
Proof.
  unfold weightedPick; cbn [fst List.length].
  apply nth_In; cbn [List.length]; apply Nat.mod_upper_bound; discriminate.
Qed.

Lemma director_update_spawns (delta : num) (s : Scene) :
  (period s <? timer s + delta)%float = true ->
  director_update delta s = spawn (set_timer 0 s).
Proof. unfold director_update, period; intros ->; reflexivity. Qed.

Lemma director_update_waits (delta : num) (s : Scene) :
  (period s <? timer s + delta)%float = false ->
  director_update delta s = set_timer (timer s + delta) s.
Proof. unfold director_update, period; intros ->; reflexivity. Qed.

(** C6 at its failing input.  A spawn makes three sprites at y = -50 and
    x = width/2 - 40, width/2, width/2 + 40, of the one picked type, with
    hp 4 for a tank and 2 otherwise, and gives them the velocities (0, 40),
    (0, 50), (0, 60) in its local group.  It then adds them to the scene's
    enemies, an Arcade physics group, and that resets the velocities: the
    three enemies the scene holds stand still.  In the sample session the
    first batch is three scouts at rest. *)
Theorem spawn_batch_loses_velocity :
  (forall s : Scene,
     let type := fst (weightedPick ["scout"; "tank"; "pulsar"] (rnd s)) in
     let hp := if String.eqb type "tank" then 4 else 2 in
     let w := width s in
     map (spawn_enemy w type (nextId s)) (seq 0 3)
     = [ mkEnemy (nextId s + 0) (w / 2 + -40) (-50) 0 40 type hp;
         mkEnemy (nextId s + 1) (w / 2 + 0) (-50) 0 50 type hp;
         mkEnemy (nextId s + 2) (w / 2 + 40) (-50) 0 60 type hp ] /\
     enemies (spawn s)
     = enemies s ++ [ mkEnemy (nextId s + 0) (w / 2 + -40) (-50) 0 0 type hp;
                      mkEnemy (nextId s + 1) (w / 2 + 0) (-50) 0 0 type hp;
                      mkEnemy (nextId s + 2) (w / 2 + 40) (-50) 0 0 type hp ] /\
     (forall delta, (period s <? timer s + delta)%float = true ->
        enemies (director_update delta s) = enemies (spawn s)) /\
     (type = "tank" -> hp = 4) /\
     (type = "scout" \/ type = "pulsar" -> hp = 2) /\
     (type = "scout" \/ type = "tank" \/ type = "pulsar")) /\
  enemies (director_update 15001 scene0)
  = [ mkEnemy 0 360 (-50) 0 0 "scout" 2;
      mkEnemy 1 400 (-50) 0 0 "scout" 2;
      mkEnemy 2 440 (-50) 0 0 "scout" 2 ] /\
  map (fun e => (e_vx e, e_vy e)) (enemies (director_update 15001 scene0))
  <> [(0, 40); (0, 50); (0, 60)]%float.
Proof.
  split; [|split; [vm_compute; reflexivity|]].
  - intros s type hp w; split; [reflexivity|]; split; [reflexivity|];
      split; [|split; [|split]].
    + intros delta Hcross; rewrite (director_update_spawns _ _ Hcross); reflexivity.
    + subst hp; intros ->; reflexivity.
    + subst hp; intros [-> | ->]; reflexivity.
    + pose proof (weightedPick_member (rnd s)) as H; fold type in H.
      cbn [In] in H; intuition congruence.
  - assert (E : map (fun e => (e_vx e, e_vy e)) (enemies (director_update 15001 scene0))
                = [(0, 0); (0, 0); (0, 0)]%float) by (vm_compute; reflexivity).
    rewrite E; intros H.
    apply (f_equal (fun l => match l with
                             | (_, v) :: _ => PrimFloat.eqb v 40
                             | [] => false
                             end)) in H.
    vm_compute in H; discriminate H.
Qed.

Lemma director_update_grows (delta : num) (s : Scene) :
  (List.length (enemies (director_update delta s)) <= List.length (enemies s) + 3)%nat.
Proof.
  destruct (period s <? timer s + delta)%float eqn:E.
  - rewrite (director_update_spawns _ _ E), spawn_enemies, length_app, batch_length.
    cbn; lia.
  - rewrite (director_update_waits _ _ E); cbn; lia.
Qed.

Lemma run_director_grows (ds : list num) :
  forall s, (List.length (enemies (run_director ds s))
             <= List.length (enemies s) + 3 * List.length ds)%nat.
Proof.
  induction ds as [|d ds IH]; intros s; cbn [run_director fold_left List.length].
  - lia.
  - specialize (IH (director_update d s)); unfold run_director in IH.
    pose proof (director_update_grows d s); lia.
Qed.

(** C7.  One tick adds [delta] to the timer.  If the sum exceeds the
    period, the timer is set to 0 (the overshoot is dropped), the
    framework's generator is asked once and one batch of three enemies is
    appended; otherwise the timer keeps the sum and nothing is spawned.
    So no tick spawns more than one batch, whatever its delta, and a run of
    n ticks adds at most 3n enemies.  The period is 15000 when the
    configuration gives none. *)
Theorem director_at_most_one_spawn_per_tick (delta : num) (s : Scene) :
  let s' := director_update delta s in
  (if (period s <? timer s + delta)%float
   then timer s' = 0%float /\
        enemies s' = enemies s ++ batch s /\
        rnd_calls (rnd s') = S (rnd_calls (rnd s))
   else timer s' = (timer s + delta)%float /\
        enemies s' = enemies s /\
        rnd s' = rnd s) /\
  (forall ds, (List.length (enemies (run_director ds s))
               <= List.length (enemies s) + 3 * List.length ds)%nat) /\
  (gfx_encounterPeriod (gfx s) = None -> period s = 15000%float).
Proof.
  intros s'; subst s'; repeat split.
  - destruct (period s <? timer s + delta)%float eqn:E.
    + rewrite (director_update_spawns _ _ E); repeat split.
    + rewrite (director_update_waits _ _ E); repeat split.
  - intros ds; apply run_director_grows.
  - unfold period; intros ->; reflexivity.
Qed.

(** A tick of a whole day still spawns one batch only. *)
Example director_no_catch_up :
  List.length (enemies (director_update 86400000 scene0)) = 3%nat /\
  timer (director_update 86400000 scene0) = 0%float /\
  List.length (enemies (director_update 15000 scene0)) = 0%nat /\
  List.length (enemies (run_director [15001; 1; 15000; 1] scene0))%float = 6%nat.
Proof. vm_compute; repeat split. Qed.

(** What a spawn asks of the framework's generator: one member of the
    fixed list scout, tank, pulsar, which it gives to all three enemies of
    the batch.  No weights are passed and the sector is not read: the
    batch is the same whatever sector the scene has. *)
Lemma spawn_picks_once (s : Scene) (sec : Sector.t) :
  let type := fst (weightedPick ["scout"; "tank"; "pulsar"] (rnd s)) in
  map e_type (batch s) = [type; type; type] /\
  In type ["scout"; "tank"; "pulsar"] /\
  enemies (spawn s) = enemies s ++ batch s /\
  rnd (spawn s) = snd (weightedPick ["scout"; "tank"; "pulsar"] (rnd s)) /\
  rnd_calls (rnd (spawn s)) = S (rnd_calls (rnd s)) /\
  batch (set_sector sec s) = batch s /\
  enemies (spawn (set_sector sec s)) = enemies (spawn s).
Proof.
  intros type; repeat split.
  apply weightedPick_member.
Qed.

(** ** Sector jumps *)

Lemma scan_frame (s : Scene) :
  Player.hull (player (scan s)) = Player.hull (player s) /\
  Player.shield (player (scan s)) = Player.shield (player s) /\
  enemies (scan s) = enemies s /\
  bullets (scan s) = bullets s.
Proof.
  unfold scan; cbv zeta; destruct (existsb _ _); [|repeat split].
  destruct (_ =? 0); repeat split.
Qed.

(** C10.  A jump replaces the seed by the derived seed and the sector, the
    star group, the planets and the nebulae by those made for it; it draws
    from the page-wide random source and emits the sector's name.  The
    player (hull, shield flag, discoveries, position and velocity), the
    enemies and the bullets are as before, and so are the director's timer
    and the pending delayed calls: the enemies of the previous sector are
    still there in the new one.  The one caller of the jump is the scan,
    and a scan, jumping or not, keeps hull, shield flag, enemies and
    bullets. *)
Theorem jumpSector_frame (s : Scene) :
  let s' := jumpSector s in
  (Player.hull (player (scan s)) = Player.hull (player s) /\
   Player.shield (player (scan s)) = Player.shield (player s) /\
   enemies (scan s) = enemies s /\
   bullets (scan s) = bullets s) /\
  player s' = player s /\
  Player.hull (player s') = Player.hull (player s) /\
  Player.shield (player s') = Player.shield (player s) /\
  Player.discoveries (player s') = Player.discoveries (player s) /\
  enemies s' = enemies s /\
  bullets s' = bullets s /\
  timer s' = timer s /\
  delayed s' = delayed s /\
  rnd s' = rnd s /\
  nextId s' = nextId s /\
  seed s' = next_seed (seed s) /\
  sector s' = fst (SectorFactory (next_seed (seed s)) (page s)) /\
  effects s' = effects s ++ [Emit_updateHud None None (Some (Sector.name (sector s')))].
Proof.
  intros s'; subst s'; split; [apply scan_frame|].
  unfold jumpSector; cbv zeta.
  repeat split.
Qed.

(** ** The shield *)


Lemma enemy_not_alive_after_destroy (e : nat) (s : Scene) :
  enemy_alive e (destroy_enemy e s) = false.
Proof.
  unfold destroy_enemy, enemy_alive.
  destruct (existsb _ (enemies s)) eqn:E; [|exact E].
  cbn [enemies emit set_effects set_enemies].
  induction (enemies s) as [|x l IH]; [reflexivity|].
  cbn [filter]; destruct (Nat.eqb (e_id x) e) eqn:Ex; cbn [negb].
  - cbn [existsb] in E. destruct (existsb _ l) eqn:El; [now apply IH|].
    clear; induction l as [|z l IHl]; [reflexivity|].
    cbn [filter]; destruct (Nat.eqb (e_id z) e) eqn:Ez; cbn [negb]; [exact IHl|].
    cbn [existsb]; rewrite Ez; exact IHl.
  - cbn [existsb] in *; rewrite Ex in *; cbn [orb] in *; now apply IH.
Qed.

Lemma playerHit_shielded (e : nat) (s : Scene) :
  Player.shield (player s) = true -> playerHit e s = destroy_enemy e s.
Proof.
  intros H; unfold playerHit.
  replace (Player.shield (player (destroy_enemy e s))) with true; [reflexivity|].
  unfold destroy_enemy; destruct (existsb _ _); now rewrite <- H.
Qed.

Lemma playerHit_unshielded_hull (e : nat) (s : Scene) :
  Player.shield (player s) = false ->
  Player.hull (player (playerHit e s)) = Player.hull (player s) - 1.
Proof.
  intros H; unfold playerHit.
  replace (Player.shield (player (destroy_enemy e s))) with false
    by (unfold destroy_enemy; destruct (existsb _ _); now rewrite <- H).
  replace (player (destroy_enemy e s)) with (player s)
    by (unfold destroy_enemy; now destruct (existsb _ _)).
  cbv zeta. destruct (_ <=? 0); reflexivity.
Qed.

Lemma destroy_enemy_player (e : nat) (s : Scene) : player (destroy_enemy e s) = player s.
Proof. unfold destroy_enemy; now destruct (existsb _ _). Qed.

Lemma destroy_enemy_game_overs (e : nat) (s : Scene) :
  game_overs (destroy_enemy e s) = game_overs s.
Proof.
  unfold destroy_enemy, game_overs; destruct (existsb _ _); [|reflexivity].
  cbn [effects emit set_effects set_enemies].
  rewrite filter_app, length_app; cbn; lia.
Qed.






Lemma playerHit_enemies (e : nat) (s : Scene) :
  enemies (playerHit e s) = enemies (destroy_enemy e s).
Proof.
  unfold playerHit; destruct (Player.shield _); [reflexivity|].
  cbv zeta; destruct (_ <=? 0); reflexivity.
Qed.

Lemma playerHit_destroys (e : nat) (s : Scene) : enemy_alive e (playerHit e s) = false.
Proof.
  pose proof (enemy_not_alive_after_destroy e s) as H.
  unfold enemy_alive in *; now rewrite playerHit_enemies.
Qed.



Example shield_window_300 :
  let s := director_update 15001 scene0 in
  expired [100; 100; 99]%float = false /\
  Player.hull (player (playerHit 0 (run_clock [100; 100; 99]%float (shield s)))) = 3 /\
  expired [100; 100; 100]%float = true /\
  Player.hull (player (playerHit 0 (run_clock [100; 100; 100]%float (shield s)))) = 2 /\
  delayed (shield (run_clock [100; 100]%float (shield s)))
  = [mkTimerEvent 200 300 (400, 420)%float].
Proof. vm_compute; repeat split. Qed.

(** ** Fire *)

Lemma first_inactive_none (bs : list Bullet) :
  forallb b_active bs = true -> first_inactive bs = None.
Proof.
  induction bs as [|b bs IH]; [reflexivity|]; cbn [forallb first_inactive].
  intros H; apply andb_prop in H; destruct H as [Hb Hbs].
  rewrite Hb, (IH Hbs); reflexivity.
Qed.

Lemma fire_dropped (s : Scene) :
  all_active (bullets s) = true -> isFull (bullets s) = true -> fire s = s.
Proof.
  intros Ha Hf; unfold fire, Group_get.
  rewrite (first_inactive_none _ Ha), Hf; reflexivity.
Qed.

Lemma fire_created (s : Scene) :
  all_active (bullets s) = true -> isFull (bullets s) = false ->
  fire s =
    emit AudioPing
      (set_bullets
         (mkGroup (children (bullets s) ++
                   [mkBullet (nextId s) (Player.x (player s)) (Player.y (player s) - 20)
                             0 (-300) true true])
                  (maxSize (bullets s)))
         (emit (AddBullet (nextId s)) (set_nextId (S (nextId s)) s))).
Proof.
  intros Ha Hf; unfold fire, Group_get.
  rewrite (first_inactive_none _ Ha), Hf; reflexivity.
Qed.

Lemma create_bullets (cfg : GameConfig) (w h : num) (g : GFX) (now : Z) (r : RND)
      (m : Ambient) :
  bullets (state_of (create cfg w h g now r m)) = mkGroup [] (-1).
Proof.
  unfold create; destruct (input_gamepad cfg), (gfx_bloom g), (gfx_vignette g); reflexivity.
Qed.

Lemma fires_unbounded (n : nat) :
  forall s, all_active (bullets s) = true -> maxSize (bullets s) = -1 ->
    let s' := Nat.iter n fire s in
    all_active (bullets s') = true /\
    maxSize (bullets s') = -1 /\
    List.length (children (bullets s')) = (List.length (children (bullets s)) + n)%nat.
Proof.
  induction n as [|n IH]; intros s Ha Hm.
  - cbn; repeat split; auto.
  - destruct (IH s Ha Hm) as (Ha' & Hm' & Hl').
    change (Nat.iter (S n) fire s) with (fire (Nat.iter n fire s)).
    set (t := Nat.iter n fire s) in *.
    assert (Hf : isFull (bullets t) = false) by (unfold isFull; rewrite Hm'; reflexivity).
    rewrite (fire_created t Ha' Hf); cbn [bullets emit set_effects set_bullets set_nextId
                                           children maxSize].
    repeat split.
    + unfold all_active in *; cbn [children]; rewrite forallb_app, Ha'; reflexivity.
    + exact Hm'.
    + rewrite length_app, Hl'; cbn [List.length]; lia.
Qed.

Lemma fires_from_create (cfg : GameConfig) (w h : num) (g : GFX) (now : Z) (r : RND)
      (m : Ambient) (n : nat) :
  maxSize (bullets (Nat.iter n fire (state_of (create cfg w h g now r m)))) = -1 /\
  List.length (children (bullets (Nat.iter n fire (state_of (create cfg w h g now r m))))) = n.
Proof.
  destruct (fires_unbounded n (state_of (create cfg w h g now r m))) as (_ & Hm & Hl).
  - rewrite create_bullets; reflexivity.
  - rewrite create_bullets; reflexivity.
  - rewrite create_bullets in Hl; cbn [children List.length Nat.add] in Hl; auto.
Qed.

(** C8, as the code has it.  [fire] takes a bullet from the scene's group
    and launches it from 20 units above the player's position with
    velocity (0, -300).  When the group has none to give (every member
    active and the group full) the call returns the scene as it was.  The
    group is created without a size limit (on line 18, before the line
    of [create] that can throw), so it is never full: the n-th fire of a
    session finds room, and n fires leave n bullets. *)
Theorem fire_takes_from_unbounded_group :
  (forall s, all_active (bullets s) = true -> isFull (bullets s) = true -> fire s = s) /\
  (forall s, all_active (bullets s) = true -> isFull (bullets s) = false ->
     bullets (fire s) =
       mkGroup (children (bullets s) ++
                [mkBullet (nextId s) (Player.x (player s)) (Player.y (player s) - 20)
                          0 (-300) true true])
               (maxSize (bullets s)) /\
     player (fire s) = player s /\
     enemies (fire s) = enemies s /\
     effects (fire s) = effects s ++ [AddBullet (nextId s); AudioPing]) /\
  (forall cfg w h g now r m n,
     let s := Nat.iter n fire (state_of (create cfg w h g now r m)) in
     maxSize (bullets s) = -1 /\
     isFull (bullets s) = false /\
     List.length (children (bullets s)) = n).
Proof.
  split; [exact fire_dropped|split].
  - intros s Ha Hf; rewrite (fire_created s Ha Hf).
    cbn [bullets player enemies effects emit set_effects set_bullets set_nextId].
    rewrite <- app_assoc; repeat split.
  - intros cfg w h g now r m n s; subst s.
    destruct (fires_from_create cfg w h g now r m n) as [Hm Hl].
    repeat split; [exact Hm | unfold isFull; rewrite Hm; reflexivity | exact Hl].
Qed.

(** C8 fails as stated: no bound holds on the bullets of a session; n
    fires make n bullets. *)
Lemma bullets_not_bounded :
  ~ exists bound : nat,
      forall n, (List.length (children (bullets (Nat.iter n fire scene0))) <= bound)%nat.
Proof.
  intros [bound H]; specialize (H (S bound)); unfold scene0 in H.
  rewrite (proj2 (fires_from_create _ _ _ _ _ _ _ _)) in H; lia.
Qed.

(** A group that has a limit does drop the request. *)
Example fire_on_a_full_group :
  let s := set_bullets (mkGroup (children (bullets (fire scene0))) 1) (fire scene0) in
  isFull (bullets s) = true /\ all_active (bullets s) = true /\
  children (bullets (fire s)) = children (bullets s) /\
  effects (fire s) = effects s /\
  List.length (children (bullets (Nat.iter 4 fire scene0))) = 4%nat.
Proof. vm_compute; repeat split. Qed.

(** ** The order of a tick *)

Lemma appends_nothing (P : Effect -> bool) (f : Scene -> Scene) :
  (forall s, effects (f s) = effects s) -> appends P f.
Proof. intros H s; exists []; rewrite H, app_nil_r; auto. Qed.


Lemma appends_compose (P : Effect -> bool) (f g : Scene -> Scene) :
  appends P f -> appends P g -> appends P (fun s => g (f s)).
Proof.
  intros Hf Hg s; destruct (Hf s) as (l1 & E1 & F1); destruct (Hg (f s)) as (l2 & E2 & F2).
  exists (l1 ++ l2); rewrite E2, E1, <- app_assoc, forallb_app, F1, F2; auto.
Qed.

Lemma appends_when (P : Effect -> bool) (b : bool) (f : Scene -> Scene) :
  appends P f -> appends P (fun s => if b then f s else s).
Proof. intros Hf; destruct b; [exact Hf|]; now apply appends_nothing. Qed.

Lemma appends_fire : appends action_effect fire.
Proof.
  intros s; unfold fire.
  destruct (Group_get _ _ _ _) as [[[[before b] after] [|]]|].
  - exists [AddBullet (b_id b); AudioPing]; cbn; rewrite <- app_assoc; auto.
  - exists [AudioPing]; cbn; auto.
  - exists []; rewrite app_nil_r; auto.
Qed.





Lemma appends_pad_actions inp : appends action_effect (fun s => state_of (pad_actions inp s)).
Proof.
  intros s; unfold pad_actions; destruct (pad inp) as [pd|]; cbn [state_of].
  - exact (appends_when _ (button0 pd) fire appends_fire s).
  - exists []; rewrite app_nil_r; auto.
Qed.


(** *** The cleanup *)

Lemma filter_no_id (id : nat) (l : list Bullet) :
  existsb (fun b => Nat.eqb (b_id b) id) l = false ->
  filter (fun b => negb (Nat.eqb (b_id b) id)) l = l.
Proof.
  induction l as [|a l IH]; [reflexivity|]; cbn [existsb filter]; intros H.
  apply orb_false_elim in H; destruct H as [Ha Hl].
  rewrite Ha; cbn [negb]; rewrite (IH Hl); reflexivity.
Qed.

Lemma destroy_bullet_children (id : nat) (s : Scene) :
  children (bullets (destroy_bullet id s))
  = filter (fun b => negb (Nat.eqb (b_id b) id)) (children (bullets s)).
Proof.
  unfold destroy_bullet; destruct (existsb _ _) eqn:E; [reflexivity|].
  symmetry; apply filter_no_id, E.
Qed.

Lemma filter_id_shorter (b : Bullet) (l : list Bullet) :
  In b l ->
  (List.length (filter (fun x => negb (Nat.eqb (b_id x) (b_id b))) l) < List.length l)%nat.
Proof.
  induction l as [|a l IH]; [intros []|]; intros [->|Hin]; cbn [filter List.length].
  - rewrite Nat.eqb_refl; cbn [negb].
    pose proof (filter_length_le (fun x => negb (Nat.eqb (b_id x) (b_id b))) l); lia.
  - specialize (IH Hin); destruct (negb _); cbn [List.length]; lia.
Qed.

Lemma destroy_bullet_shorter (b : Bullet) (s : Scene) :
  In b (children (bullets s)) ->
  (List.length (children (bullets (destroy_bullet (b_id b) s)))
   < List.length (children (bullets s)))%nat.
Proof. intros H; rewrite destroy_bullet_children; apply filter_id_shorter, H. Qed.

Lemma destroy_bullet_log (id : nat) (s : Scene) :
  effects (destroy_bullet id s) = effects s \/
  effects (destroy_bullet id s) = effects s ++ [DestroyBullet id].
Proof. unfold destroy_bullet; destruct (existsb _ _); [right|left]; reflexivity. Qed.


(** Once the entries are fewer than the indices to visit, the loop reads
    past the end. *)
Lemma iterate_cleanup_short (n : nat) :
  forall i s, (1 <= n)%nat ->
    (List.length (children (bullets s)) < i + n)%nat ->
    threw (iterate_cleanup n i s) = true.
Proof.
  induction n as [|n IH]; intros i s Hn Hlen; [lia|]; cbn [iterate_cleanup].
  destruct (nth_error _ i) as [b|] eqn:E; [|reflexivity].
  assert (Hi : (i < List.length (children (bullets s)))%nat)
    by (apply nth_error_Some; rewrite E; discriminate).
  apply IH; [lia|].
  destruct (off b); [|lia].
  pose proof (destroy_bullet_shorter b s (nth_error_In _ _ E)); lia.
Qed.

Lemma skipn_at {A} (l : list A) :
  forall i b, nth_error l i = Some b -> skipn i l = b :: skipn (S i) l.
Proof.
  induction l as [|a l IH]; intros [|i] b H; try discriminate H.
  - injection H as ->; reflexivity.
  - cbn [nth_error] in H; rewrite skipn_cons, (IH i b H); reflexivity.
Qed.

(** A cleanup that returns has destroyed nothing, or the last bullet
    only; in both cases it has looked at every bullet from [i] on. *)
Lemma iterate_cleanup_done (n : nat) :
  forall i s s',
    (List.length (children (bullets s)) <= i + n)%nat ->
    iterate_cleanup n i s = Done s' ->
    (s' = s /\ forallb (fun b => negb (off b)) (skipn i (children (bullets s))) = true) \/
    (exists l b, children (bullets s) = l ++ [b] /\ off b = true /\
                 s' = destroy_bullet (b_id b) s /\
                 forallb (fun b => negb (off b)) (skipn i l) = true).
Proof.
  induction n as [|n IH]; intros i s s' Hlen; cbn [iterate_cleanup].
  - intros H; injection H as <-; left; split; [reflexivity|].
    rewrite skipn_all2 by lia; reflexivity.
  - destruct (nth_error _ i) as [b|] eqn:E; [|discriminate].
    assert (Hi : (i < List.length (children (bullets s)))%nat)
      by (apply nth_error_Some; rewrite E; discriminate).
    destruct (exists_last (l := children (bullets s))) as (l & a & Hc);
      [intros C; rewrite C in Hi; cbn in Hi; lia|].
    assert (Hll : List.length (children (bullets s)) = S (List.length l))
      by (rewrite Hc, length_app; cbn; lia).
    destruct (off b) eqn:Eb.
    + (* destroyed: it must be the last visit *)
      destruct n as [|n].
      * cbn [iterate_cleanup]; intros H; injection H as <-; right; exists l, b.
        assert (Hil : i = List.length l) by lia.
        rewrite Hc, Hil, nth_error_app2, Nat.sub_diag in E by lia.
        cbn in E; injection E as ->.
        split; [exact Hc|split; [exact Eb|split; [reflexivity|]]].
        rewrite skipn_all2 by lia; reflexivity.
      * intros H.
        assert (T : threw (iterate_cleanup (S n) (S i) (destroy_bullet (b_id b) s)) = true).
        { apply iterate_cleanup_short; [lia|].
          pose proof (destroy_bullet_shorter b s (nth_error_In _ _ E)); lia. }
        rewrite H in T; discriminate T.
    + intros H.
      destruct (IH (S i) s s' ltac:(lia) H) as [[-> Hk]|(l' & b' & Hc' & Hb' & -> & Hk)].
      * left; split; [reflexivity|].
        rewrite (skipn_at _ _ _ E); cbn [forallb]; rewrite Eb, Hk; reflexivity.
      * right; exists l', b'; split; [exact Hc'|split; [exact Hb'|split; [reflexivity|]]].
        rewrite Hc' in E.
        destruct (Nat.lt_ge_cases i (List.length l')) as [Hi'|Hi'].
        -- rewrite nth_error_app1 in E by exact Hi'.
           rewrite (skipn_at _ _ _ E); cbn [forallb]; rewrite Eb, Hk; reflexivity.
        -- rewrite nth_error_app2 in E by lia.
           destruct (i - List.length l')%nat as [|k]; cbn in E;
             [injection E as ->; congruence|destruct k; discriminate E].
Qed.

(** A cleanup that finds no bullet above the bound before the last one
    returns. *)
Lemma iterate_cleanup_returns (n : nat) :
  forall i s,
    (i + n = List.length (children (bullets s)))%nat ->
    forallb (fun b => negb (off b)) (skipn i (removelast (children (bullets s)))) = true ->
    threw (iterate_cleanup n i s) = false.
Proof.
  induction n as [|n IH]; intros i s Hlen Hk; cbn [iterate_cleanup]; [reflexivity|].
  destruct (nth_error _ i) as [b|] eqn:E;
    [|apply nth_error_None in E; lia].
  destruct (exists_last (l := children (bullets s))) as (l & a & Hc);
    [intros C; rewrite C in Hlen; cbn in Hlen; lia|].
  rewrite Hc, removelast_last in Hk.
  assert (Hll : List.length (children (bullets s)) = S (List.length l))
    by (rewrite Hc, length_app; cbn; lia).
  destruct n as [|n]; [destruct (off b); reflexivity|].
  assert (Hi : (i < List.length l)%nat) by lia.
  rewrite Hc, nth_error_app1 in E by exact Hi.
  rewrite (skipn_at _ _ _ E) in Hk; cbn [forallb] in Hk.
  apply andb_prop in Hk; destruct Hk as [Hb Hk].
  apply negb_true_iff in Hb; rewrite Hb.
  apply IH; [lia|]; rewrite Hc, removelast_last; exact Hk.
Qed.

(** After a cleanup that returns, no bullet above the bound is left. *)
Lemma bullets_cleanup_keeps (s : Scene) :
  threw (bullets_cleanup s) = false ->
  forallb (fun b => negb (off b)) (children (bullets (state_of (bullets_cleanup s)))) = true.
Proof.
  unfold bullets_cleanup; destruct (iterate_cleanup _ 0 s) as [s'|s'] eqn:E; [|discriminate].
  intros _; cbn [state_of].
  destruct (iterate_cleanup_done _ 0 s s' (le_n _) E)
    as [[-> Hk]|(l & b & Hc & Hb & -> & Hk)]; [exact Hk|].
  rewrite destroy_bullet_children, Hc, filter_app; cbn [filter skipn] in *.
  rewrite Nat.eqb_refl; cbn [negb]; rewrite app_nil_r.
  apply forallb_forall; intros x Hx; apply filter_In in Hx.
  rewrite forallb_forall in Hk; apply Hk, Hx.
Qed.

(** *** What the actions leave alone *)

Lemma keeps_course_when (b : bool) (f : Scene -> Scene) :
  keeps_course f -> keeps_course (fun s => if b then f s else s).
Proof. intros H s; destruct b; [apply H|repeat split]. Qed.

Lemma keeps_course_compose (f g : Scene -> Scene) :
  keeps_course f -> keeps_course g -> keeps_course (fun s => g (f s)).
Proof.
  intros Hf Hg s; destruct (Hf s) as (A & B & C & D), (Hg (f s)) as (A' & B' & C' & D').
  repeat split; congruence.
Qed.

Lemma keeps_course_fire : keeps_course fire.
Proof.
  intros s; unfold fire.
  destruct (Group_get _ _ _ _) as [[[[before b] after] [|]]|]; repeat split.
Qed.

Lemma keeps_course_scan : keeps_course scan.
Proof.
  intros s; unfold scan; cbv zeta; destruct (existsb _ _); [|repeat split].
  destruct (_ =? 0); repeat split.
Qed.

Lemma keeps_course_shield : keeps_course shield.
Proof. intros s; unfold shield; destruct (Player.shield _); repeat split. Qed.

Lemma keeps_course_keyboard_actions inp : keeps_course (keyboard_actions inp).
Proof.
  unfold keyboard_actions.
  apply (keeps_course_compose
           (fun s => if O_just inp
                     then togglePhoto (if SHIFT_just inp
                                       then shield (if E_just inp
                                                    then scan (if SPACE_just inp then fire s else s)
                                                    else if SPACE_just inp then fire s else s)
                                       else if E_just inp
                                            then scan (if SPACE_just inp then fire s else s)
                                            else if SPACE_just inp then fire s else s)
                     else _)
           (fun s => if ESC_just inp then emit Scene_pause s else s)).
  - apply (keeps_course_compose _ (fun s => if O_just inp then togglePhoto s else s)).
    + apply (keeps_course_compose _ (fun s => if SHIFT_just inp then shield s else s)).
      * apply (keeps_course_compose (fun s => if SPACE_just inp then fire s else s)
                                    (fun s => if E_just inp then scan s else s)).
        -- apply keeps_course_when, keeps_course_fire.
        -- apply keeps_course_when, keeps_course_scan.
      * apply keeps_course_when, keeps_course_shield.
    + apply keeps_course_when; intros s; repeat split.
  - apply keeps_course_when; intros s; repeat split.
Qed.

Lemma destroy_bullet_frame (b : nat) (s : Scene) :
  seed (destroy_bullet b s) = seed s /\ sector (destroy_bullet b s) = sector s /\
  player (destroy_bullet b s) = player s /\ enemies (destroy_bullet b s) = enemies s.
Proof. unfold destroy_bullet; destruct (existsb _ _); repeat split. Qed.

Lemma destroy_bullet_rest (id : nat) (s : Scene) :
  timer (destroy_bullet id s) = timer s /\ delayed (destroy_bullet id s) = delayed s /\
  nextId (destroy_bullet id s) = nextId s /\ planets (destroy_bullet id s) = planets s /\
  nebulae (destroy_bullet id s) = nebulae s /\ photo (destroy_bullet id s) = photo s /\
  maxSize (bullets (destroy_bullet id s)) = maxSize (bullets s).
Proof. unfold destroy_bullet; destruct (existsb _ _); repeat split. Qed.


Lemma director_update_effects (delta : num) (s : Scene) :
  effects (director_update delta s) = effects s \/
  effects (director_update delta s)
  = effects s ++ [AddEnemy (nextId s); AddEnemy (nextId s + 1); AddEnemy (nextId s + 2)]%nat.
Proof.
  unfold director_update; destruct (_ <? _)%float; [right|left; reflexivity].
  change (effects (spawn (set_timer 0 s)))
    with (effects s ++ [AddEnemy (nextId s + 0); AddEnemy (nextId s + 1);
                        AddEnemy (nextId s + 2)])%nat.
  rewrite Nat.add_0_r; reflexivity.
Qed.

(** The cleanup touches the bullets and the log only. *)
Lemma iterate_cleanup_frame (n : nat) :
  forall i s,
    let s' := state_of (iterate_cleanup n i s) in
    player s' = player s /\ enemies s' = enemies s /\ timer s' = timer s /\
    seed s' = seed s /\ sector s' = sector s /\ delayed s' = delayed s /\
    nextId s' = nextId s /\ planets s' = planets s /\ nebulae s' = nebulae s /\
    photo s' = photo s /\ maxSize (bullets s') = maxSize (bullets s).
Proof.
  induction n as [|n IH]; intros i s; cbn [iterate_cleanup]; [cbn; repeat split|].
  destruct (nth_error _ i) as [b|]; [|cbn; repeat split].
  destruct (off b); [|apply IH].
  specialize (IH (S i) (destroy_bullet (b_id b) s)); cbv zeta in *.
  destruct IH as (A1 & A2 & A3 & A4 & A5 & A6 & A7 & A8 & A9 & A10 & A11).
  destruct (destroy_bullet_frame (b_id b) s) as (B4 & B5 & B1 & B2).
  destruct (destroy_bullet_rest (b_id b) s) as (B3 & B6 & B7 & B8 & B9 & B10 & B11).
  repeat split; congruence.
Qed.

Lemma director_update_player (delta : num) (s : Scene) :
  player (director_update delta s) = player s /\
  delayed (director_update delta s) = delayed s.
Proof. unfold director_update; destruct (_ <? _)%float; split; reflexivity. Qed.



(** ** Discoveries and jumps *)

Lemma destroy_enemy_frame (e : nat) (s : Scene) :
  seed (destroy_enemy e s) = seed s /\ sector (destroy_enemy e s) = sector s.
Proof. unfold destroy_enemy; destruct (existsb _ _); repeat split. Qed.

(** The callback of the bullet-enemy collider never jumps. *)
Lemma hitEnemy_keeps_sector (b e : nat) (s : Scene) :
  seed (hitEnemy b e s) = seed s /\ sector (hitEnemy b e s) = sector s.
Proof.
  unfold hitEnemy; destruct (destroy_bullet_frame b s) as (Hs & Hc & _).
  destruct (find_enemy e _); [|auto].
  cbv zeta; destruct (_ <=? 0); [|auto].
  cbn [seed sector emit set_effects set_player].
  destruct (destroy_enemy_frame e
              (set_enemies (map (set_hp e (e_hp e0 - 1)) (enemies (destroy_bullet b s)))
                           (destroy_bullet b s))) as [Hs' Hc'].
  rewrite Hs', Hc'; auto.
Qed.

(** A kill counts one discovery. *)
Lemma hitEnemy_kill (b e : nat) (s : Scene) (en : Enemy) :
  find_enemy e s = Some en -> e_hp en - 1 <= 0 ->
  Player.discoveries (player (hitEnemy b e s)) = Player.discoveries (player s) + 1.
Proof.
  intros Hf Hhp; unfold hitEnemy.
  destruct (destroy_bullet_frame b s) as (_ & _ & Hp & He).
  unfold find_enemy in *; rewrite He, Hf; cbv zeta.
  apply Z.leb_le in Hhp; rewrite Hhp.
  cbn [player emit set_effects set_player with_discoveries Player.discoveries].
  rewrite destroy_enemy_player; cbn [player set_enemies]; rewrite Hp; reflexivity.
Qed.

(** A scan with a planet in range counts one discovery, and jumps exactly
    when the count it reaches is a multiple of 5. *)
Lemma scan_cadence (s : Scene) :
  existsb (in_range s) (planets s) = true ->
  let d := Player.discoveries (player s) + 1 in
  Player.discoveries (player (scan s)) = d /\
  (Z.rem d 5 = 0 -> seed (scan s) = next_seed (seed s)) /\
  (Z.rem d 5 <> 0 -> seed (scan s) = seed s /\ sector (scan s) = sector s).
Proof.
  intros Hfound d; unfold scan; cbv zeta.
  change (existsb _ _) with (existsb (in_range s) (planets s)); rewrite Hfound.
  cbn [player emit set_effects set_player with_discoveries Player.discoveries set_scanRing].
  fold d; destruct (Z.rem d 5 =? 0) eqn:E.
  - apply Z.eqb_eq in E.
    split; [reflexivity|]; split; [intros _; reflexivity | intros Hd; contradiction].
  - apply Z.eqb_neq in E.
    split; [reflexivity|]; split; [intros Hd; contradiction | intros _; split; reflexivity].
Qed.

(** C1 at its failing input.  In the sample session four enemies have been
    killed and a fifth has one hp left.  The shot that kills it brings the
    discoveries to 5, a multiple of 5, and the scene stays in sector 1000
    with its seed: the collision callback counts the kill and never jumps.
    A scan that finds a planet from the same scene also reaches 5, and
    does jump, to the sector of the derived seed. *)
Theorem kill_reaches_five_without_jump :
  Player.discoveries (player four_kills) = 4 /\
  seed four_kills = 1000 /\
  let killed := shoot 10 four_kills in
  Player.discoveries (player killed) = 5 /\
  Z.rem (Player.discoveries (player killed)) 5 = 0 /\
  enemy_alive 10 four_kills = true /\ enemy_alive 10 killed = false /\
  seed killed = 1000 /\
  Sector.name (sector killed) = "Sector 1000" /\
  skipn (List.length (effects four_kills)) (effects killed)
  = [AddBullet 15; AudioPing; DestroyBullet 15; DestroyEnemy 10;
     Emit_updateHud (Some 5) None None] /\
  let scanned := scan (player_at 615 430 four_kills) in
  Player.discoveries (player scanned) = 5 /\
  seed scanned = 16807000 /\
  Sector.name (sector scanned) = "Sector 16807000".
Proof. vm_compute; repeat split. Qed.

(** ** The hull *)

(** A collision of an unshielded player costs one hull point and asks for
    the Title scene when the hull it leaves is 0 or less; nothing in the
    callback looks at what earlier collisions of the same step did. *)
Lemma playerHit_unshielded_game_over (e : nat) (s : Scene) :
  Player.shield (player s) = false ->
  game_overs (playerHit e s)
  = (game_overs s + if (Player.hull (player s) - 1 <=? 0)%Z then 1 else 0)%nat.
Proof.
  intros H; unfold playerHit.
  replace (Player.shield (player (destroy_enemy e s))) with false
    by (rewrite destroy_enemy_player; now rewrite H).
  cbv zeta; cbn [player emit set_effects set_player with_hull Player.hull].
  rewrite destroy_enemy_player.
  destruct (_ <=? 0); unfold game_overs, gameOver;
    cbn [effects emit set_effects set_player];
    rewrite ?filter_app, ?length_app; fold (game_overs (destroy_enemy e s));
    rewrite destroy_enemy_game_overs; unfold game_overs; cbn; lia.
Qed.

(** C4 at its failing input.  In the sample session the player, at hull
    1, overlaps two enemies of a batch in one step of the physics world.
    Both callbacks run: the hull goes to 0 and then to -1, and the scene
    asks for the Title scene twice. *)
Theorem two_collisions_in_one_step :
  Player.hull (player between_two_enemies) = 1 /\
  game_overs between_two_enemies = 0%nat /\
  let s := collide [] [3; 4]%nat between_two_enemies in
  Player.hull (player s) = -1 /\
  game_overs s = 2%nat /\
  skipn (List.length (effects between_two_enemies)) (effects s)
  = [DestroyEnemy 3; Emit_updateHud None (Some 0) None;
     Scene_stop "HUD"; Scene_start "Title";
     DestroyEnemy 4; Emit_updateHud None (Some (-1)) None;
     Scene_stop "HUD"; Scene_start "Title"].
Proof. vm_compute; repeat split. Qed.

(** * Further properties *)

(** ** 32-bit arithmetic and mulberry32 *)

Lemma ToInt32_range (z : Z) : -2147483648 <= ToInt32 z < 2147483648.
Proof.
  unfold ToInt32.
  pose proof (Z.mod_pos_bound (z + 2147483648) 4294967296 eq_refl); lia.
Qed.

Lemma ToInt32_small (z : Z) : -2147483648 <= z < 2147483648 -> ToInt32 z = z.
Proof. intros H; unfold ToInt32; rewrite Z.mod_small by lia; lia. Qed.

Lemma ToInt32_idem (z : Z) : ToInt32 (ToInt32 z) = ToInt32 z.
Proof. apply ToInt32_small, ToInt32_range. Qed.

Lemma ToInt32_add_l (a c : Z) : ToInt32 (ToInt32 a + c) = ToInt32 (a + c).
Proof.
  unfold ToInt32; f_equal.
  replace ((a + 2147483648) mod 4294967296 - 2147483648 + c + 2147483648)
    with ((a + 2147483648) mod 4294967296 + c) by lia.
  rewrite Z.add_mod_idemp_l by lia; f_equal; lia.
Qed.

Lemma ToInt32_wrap (a j : Z) : ToInt32 (a + 4294967296 * j) = ToInt32 a.
Proof.
  unfold ToInt32; f_equal.
  replace (a + 4294967296 * j + 2147483648) with (a + 2147483648 + j * 4294967296) by lia.
  apply Z_mod_plus_full.
Qed.

Lemma js_or_0 (z : Z) : js_or z 0 = ToInt32 z.
Proof.
  unfold js_or; change (ToInt32 0) with 0; rewrite Z.lor_0_r; apply ToInt32_idem.
Qed.

Lemma mulberry32_ToInt32 (a : Z) : mulberry32 (ToInt32 a) = mulberry32 a.
Proof. unfold mulberry32; rewrite !js_or_0, ToInt32_idem; reflexivity. Qed.

Lemma mulberry32_cell (a : Z) : snd (mulberry32 a) = ToInt32 (a + 1831565813).
Proof. unfold mulberry32; cbn [snd]; rewrite !js_or_0; apply ToInt32_add_l. Qed.

(** X1.  Every draw of the generator is k / 2^32 for an integer k with
    0 <= k < 2^32, and the closure's cell stays a 32-bit integer.  A seed
    is read modulo 2^32: seeds that differ by a multiple of 2^32 give the
    same draw and the same next cell. *)
Theorem mulberry32_draw (a : Z) :
  (exists k, 0 <= k < 4294967296 /\
             fst (mulberry32 a) = (num_of_Z k / 4294967296)%float) /\
  -2147483648 <= snd (mulberry32 a) < 2147483648 /\
  (forall j, mulberry32 (a + 4294967296 * j) = mulberry32 a).
Proof.
  split; [|split].
  - unfold mulberry32; cbn [fst]; eexists; split; [|reflexivity].
    unfold js_ushr, ToUint32; change (0 mod 32) with 0; rewrite Z.shiftr_0_r.
    apply Z.mod_pos_bound; reflexivity.
  - rewrite mulberry32_cell; apply ToInt32_range.
  - intros j; rewrite <- mulberry32_ToInt32, ToInt32_wrap; apply mulberry32_ToInt32.
Qed.

(** X2.  The cell is a counter: after n + 1 draws from seed a it holds
    a + (n + 1) * 0x6D2B79F5 wrapped to 32 bits, whatever was drawn. *)
Theorem mulberry32_cell_after (n : nat) (a : Z) :
  cell_after (S n) a = ToInt32 (a + Z.of_nat (S n) * 1831565813).
Proof.
  induction n as [|n IH].
  - change (cell_after 1 a) with (snd (mulberry32 a)).
    rewrite mulberry32_cell; f_equal; lia.
  - change (cell_after (S (S n)) a) with (snd (mulberry32 (cell_after (S n) a))).
    rewrite mulberry32_cell, IH, ToInt32_add_l; f_equal; lia.
Qed.

(** ** The shape of a sector *)

Lemma takes_ret {A} (v : A) (P : A -> nat -> Prop) : P v O -> takes (ret v) P.
Proof. intros H s; split; [reflexivity|]; exists O; cbn; split; [lia|exact H]. Qed.

Lemma takes_bind {A B} (c : Gen A) (k : A -> Gen B)
      (P : A -> nat -> Prop) (R : B -> nat -> Prop) :
  takes c P ->
  (forall v n, P v n -> takes (k v) (fun w m => R w (n + m)%nat)) ->
  takes (bind c k) R.
Proof.
  intros Hc Hk s; unfold bind; cbv zeta.
  destruct (Hc s) as (Hd & n & Hn & HP).
  destruct (Hk _ _ HP (snd (c s))) as (Hd' & m & Hm & HR).
  split; [congruence|]; exists (n + m)%nat; split; [lia|exact HR].
Qed.

Lemma takes_weaken {A} (c : Gen A) (P Q : A -> nat -> Prop) :
  takes c P -> (forall v n, P v n -> Q v n) -> takes c Q.
Proof.
  intros Hc HPQ s; destruct (Hc s) as (Hd & n & Hn & HP).
  split; [exact Hd|]; exists n; auto.
Qed.

Lemma takes_rand : takes rand (fun _ n => n = O).
Proof. intros s; split; [reflexivity|]; exists O; split; [cbn; lia|reflexivity]. Qed.

Lemma takes_randomColor : takes randomColor (fun _ n => n = 3%nat).
Proof.
  intros s; split; [reflexivity|]; exists 3%nat; split; [|reflexivity].
  change (am_calls (page_src (snd (randomColor s))))
    with (S (S (S (am_calls (page_src s))))); lia.
Qed.

Lemma takes_for_push {A} (body : nat -> Gen A) (c : nat) (Q : A -> Prop) :
  (forall i, takes (body i) (fun v n => n = c /\ Q v)) ->
  forall k i0, takes (for_push body i0 k)
                     (fun l n => n = (k * c)%nat /\ List.length l = k /\ Forall Q l).
Proof.
  intros Hbody; induction k as [|k IH]; intros i0; cbn [for_push].
  - apply takes_ret; auto.
  - eapply takes_bind; [apply Hbody|]; intros v n [-> Hv].
    eapply takes_bind; [apply IH|]; intros vs m (-> & Hlen & Hall).
    apply takes_ret; cbn [List.length]; repeat split; auto; lia.
Qed.

Lemma takes_gen_star (l i : nat) :
  takes (gen_star l i)
        (fun st n => n = O /\ Sector.depth st = (0.2 + num_of_nat l * 0.3)%float).
Proof.
  unfold gen_star.
  eapply takes_bind; [apply takes_rand|]; intros x ? ->.
  eapply takes_bind; [apply takes_rand|]; intros y ? ->.
  apply takes_ret; auto.
Qed.

Lemma takes_gen_layer (l : nat) :
  takes (gen_layer l)
        (fun layer n =>
           n = O /\ List.length layer = 200%nat /\
           Forall (fun st => Sector.depth st = (0.2 + num_of_nat l * 0.3)%float) layer).
Proof.
  eapply takes_weaken; [apply (takes_for_push _ O _ (takes_gen_star l) 200 0)|].
  intros v n (-> & H1 & H2); auto.
Qed.

Lemma takes_gen_planet (i : nat) : takes (gen_planet i) (fun _ n => n = 3%nat /\ True).
Proof.
  unfold gen_planet.
  eapply takes_bind; [apply takes_rand|]; intros x ? ->.
  eapply takes_bind; [apply takes_rand|]; intros y ? ->.
  eapply takes_bind; [apply takes_rand|]; intros sc ? ->.
  eapply takes_bind; [apply takes_randomColor|]; intros c ? ->.
  apply takes_ret; auto.
Qed.

Lemma takes_gen_galaxy (i : nat) : takes (gen_galaxy i) (fun _ n => n = O /\ True).
Proof.
  unfold gen_galaxy.
  eapply takes_bind; [apply takes_rand|]; intros x ? ->.
  eapply takes_bind; [apply takes_rand|]; intros y ? ->.
  eapply takes_bind; [apply takes_rand|]; intros sc ? ->.
  eapply takes_bind; [apply takes_rand|]; intros r ? ->.
  apply takes_ret; auto.
Qed.

Lemma takes_gen_nebula (i : nat) : takes (gen_nebula i) (fun _ n => n = 3%nat /\ True).
Proof.
  unfold gen_nebula.
  eapply takes_bind; [apply takes_rand|]; intros x ? ->.
  eapply takes_bind; [apply takes_rand|]; intros y ? ->.
  eapply takes_bind; [apply takes_randomColor|]; intros c ? ->.
  eapply takes_bind; [apply takes_rand|]; intros a ? ->.
  apply takes_ret; auto.
Qed.

Lemma takes_gen_count (base : Z) : takes (gen_count base) (fun _ n => n = O).
Proof.
  unfold gen_count.
  eapply takes_bind; [apply takes_rand|]; intros x ? ->.
  apply takes_ret; auto.
Qed.

Lemma takes_for_push_indexed {A} (body : nat -> Gen A) (c : nat) (Q : nat -> A -> Prop) :
  (forall i, takes (body i) (fun v n => n = c /\ Q i v)) ->
  forall k i0, takes (for_push body i0 k)
                     (fun l n => n = (k * c)%nat /\ Forall2 Q (seq i0 k) l).
Proof.
  intros Hbody; induction k as [|k IH]; intros i0; cbn [for_push seq].
  - apply takes_ret; auto.
  - eapply takes_bind; [apply Hbody|]; intros v n [-> Hv].
    eapply takes_bind; [apply IH|]; intros vs m (-> & Hall).
    apply takes_ret; split; [lia|constructor; assumption].
Qed.

Lemma takes_layers :
  takes (for_push gen_layer 0 3)
        (fun v n =>
           n = O /\
           exists l0 l1 l2,
             v = [l0; l1; l2] /\
             List.length l0 = 200%nat /\ List.length l1 = 200%nat /\
             List.length l2 = 200%nat /\
             Forall (fun st => Sector.depth st = 0.2%float) l0 /\
             Forall (fun st => Sector.depth st = 0.5%float) l1 /\
             Forall (fun st => Sector.depth st = 0.8%float) l2).
Proof.
  eapply takes_weaken;
    [apply (takes_for_push_indexed gen_layer O
              (fun l layer =>
                 List.length layer = 200%nat /\
                 Forall (fun st => Sector.depth st = (0.2 + num_of_nat l * 0.3)%float) layer));
     intros l; eapply takes_weaken; [apply takes_gen_layer|]; intros v n (-> & H1 & H2); auto|].
  intros v n [-> H]; split; [reflexivity|].
  inversion H as [|? l0 ? ? [L0 D0] Ha]; subst.
  inversion Ha as [|? l1 ? ? [L1 D1] Hb]; subst.
  inversion Hb as [|? l2 ? ? [L2 D2] Hc]; subst.
  inversion Hc; subst.
  exists l0, l1, l2; repeat split; assumption.
Qed.

Lemma takes_gen_sector (seed : Z) :
  takes (gen_sector seed)
        (fun sec n =>
           sector_shape seed sec /\
           n = (3 * (List.length (Sector.planets sec)
                     + List.length (Sector.nebulae sec)))%nat).
Proof.
  unfold gen_sector.
  eapply takes_bind; [apply takes_layers|].
  intros ? ? (-> & l0 & l1 & l2 & -> & L0 & L1 & L2 & D0 & D1 & D2).
  eapply takes_bind; [apply takes_gen_count|]; intros pc ? ->.
  eapply takes_bind; [apply (takes_for_push _ 3 _ takes_gen_planet)|].
  intros ps ? (-> & Lp & _).
  eapply takes_bind; [apply takes_gen_count|]; intros gc ? ->.
  eapply takes_bind; [apply (takes_for_push _ O _ takes_gen_galaxy)|].
  intros gs ? (-> & Lg & _).
  eapply takes_bind; [apply takes_gen_count|]; intros nc ? ->.
  eapply takes_bind; [apply (takes_for_push _ 3 _ takes_gen_nebula)|].
  intros ns ? (-> & Ln & _).
  apply takes_ret; cbn [Sector.planets Sector.nebulae]; split; [|lia].
  unfold sector_shape; cbn [Sector.name Sector.stars Sector.belts Sector.stations
    Sector.anomalies Sector.tint Sector.ambient Sector.encounterWeights].
  repeat split; auto.
  exists l0, l1, l2; auto 10.
Qed.

Lemma snd_repack (r : Sector.t * Src) :
  snd (let r0 := r in (fst r0, page_src (snd r0))) = page_src (snd r).
Proof. reflexivity. Qed.

Lemma snd_SectorFactory (seed : Z) (m : Ambient) :
  snd (SectorFactory seed m) = page_src (snd (gen_sector seed (mkSrc seed m))).
Proof. exact (snd_repack (gen_sector seed (mkSrc seed m))). Qed.

Lemma SectorFactory_has_shape (seed : Z) (m : Ambient) :
  sector_shape seed (fst (SectorFactory seed m)).
Proof.
  rewrite fst_SectorFactory.
  destruct (takes_gen_sector seed (mkSrc seed m)) as (_ & n & _ & Hshape & _).
  exact Hshape.
Qed.

(** X3.  Whatever the seed and the page-wide source, the sector made has
    the name "Sector <seed>", three star layers of 200 stars each with depth
    factors 0.2, 0.5 and 0.8, no belts, stations or anomalies, the white
    tint, the ambient "deep" and the encounter weights 0.7, 0.2, 0.1. *)
Theorem SectorFactory_shape (seed : Z) (m : Ambient) :
  sector_shape seed (fst (SectorFactory seed m)) /\
  map (@List.length _) (Sector.stars (fst (SectorFactory seed m))) = [200; 200; 200]%nat.
Proof.
  pose proof (SectorFactory_has_shape seed m) as H; split; [exact H|].
  destruct H as (_ & (l0 & l1 & l2 & E & L0 & L1 & L2 & _) & _).
  rewrite E; cbn [map]; rewrite L0, L1, L2; reflexivity.
Qed.

(** X4.  A call of [SectorFactory] takes exactly three draws of the
    page-wide source for each planet and each nebula it makes, none for
    stars and galaxies, and leaves the draws to come as they were. *)
Theorem SectorFactory_page_draws (seed : Z) (m : Ambient) :
  let made := SectorFactory seed m in
  am_calls (snd made)
  = (am_calls m + 3 * (List.length (Sector.planets (fst made))
                       + List.length (Sector.nebulae (fst made))))%nat /\
  am_draw (snd made) = am_draw m.
Proof.
  cbv zeta; rewrite fst_SectorFactory, snd_SectorFactory.
  destruct (takes_gen_sector seed (mkSrc seed m)) as (Hd & n & Hn & _ & ->).
  split; [exact Hn|exact Hd].
Qed.

(** ** Seeds *)

Lemma next_seed_mod (sd : Z) : 0 <= sd -> next_seed sd = (sd * 16807) mod 2147483647.
Proof. intros H; unfold next_seed; apply Z.rem_mod_nonneg; lia. Qed.

Lemma divides_seed (d : Z) : (2147483647 | d * 16807) -> (2147483647 | d).
Proof.
  intros H; apply Z.gauss with (m := 16807).
  - rewrite Z.mul_comm; exact H.
  - reflexivity.
Qed.

Lemma next_seed_exact (s1 s2 : Z) :
  0 <= s1 < 2147483647 -> 0 <= s2 < 2147483647 ->
  0 <= next_seed s1 < 2147483647 /\
  (next_seed s1 = next_seed s2 -> s1 = s2) /\
  (next_seed s1 = 0 <-> s1 = 0).
Proof.
  intros H1 H2; rewrite !next_seed_mod by lia.
  assert (Hinj : forall a b, 0 <= a < 2147483647 -> 0 <= b < 2147483647 -> a <= b ->
                   (a * 16807) mod 2147483647 = (b * 16807) mod 2147483647 -> a = b).
  { intros a b Ha Hb Hab E.
    assert (D : (2147483647 | (b - a) * 16807)).
    { apply Z.mod_divide; [lia|].
      rewrite Z.mul_sub_distr_r, Zminus_mod, E, Z.sub_diag; reflexivity. }
    apply divides_seed in D; destruct D as [q Hq].
    assert (q = 0) by nia; lia. }
  split; [apply Z.mod_pos_bound; lia|split].
  - intros E; destruct (Z.le_ge_cases s1 s2) as [L|L].
    + now apply Hinj.
    + symmetry; apply Hinj; auto.
  - split; [|intros ->; reflexivity].
    intros E; symmetry; apply (Hinj 0 s1); [lia|lia|lia|rewrite E; reflexivity].
Qed.

(** X5.  On the seeds 0 <= s < 2^31 - 1 the derived seed stays in that
    range, distinct seeds derive distinct seeds, and only the seed 0
    derives 0: a session whose seed is not 0 never reaches seed 0, and a
    session started on seed 0 stays on it. *)
Theorem next_seed_on_range (s1 s2 : Z) :
  0 <= s1 < 2147483647 -> 0 <= s2 < 2147483647 ->
  0 <= next_seed s1 < 2147483647 /\
  (next_seed s1 = next_seed s2 -> s1 = s2) /\
  (next_seed s1 = 0 <-> s1 = 0).
Proof. exact (next_seed_exact s1 s2). Qed.

Lemma next_seed_on_range_witness :
  0 <= 1000 < 2147483647 /\ 0 <= 65535 < 2147483647 /\
  0 <= next_seed 1000 < 2147483647 /\
  (next_seed 1000 = next_seed 65535 -> 1000 = 65535) /\
  (next_seed 1000 = 0 <-> 1000 = 0).
Proof.
  split; [lia|]; split; [lia|].
  apply (next_seed_on_range 1000 65535); lia.
Defined.

Lemma seed_jumpSector (s : Scene) : seed (jumpSector s) = next_seed (seed s).
Proof. reflexivity. Qed.

(** X6.  k jumps in a row take the seed s, 0 <= s < 2^31 - 1, to
    s * 16807^k modulo 2^31 - 1. *)
Theorem seed_after_jumps (k : nat) (s : Scene) :
  0 <= seed s < 2147483647 ->
  seed (Nat.iter k jumpSector s) = (seed s * 16807 ^ Z.of_nat k) mod 2147483647.
Proof.
  intros H; induction k as [|k IH].
  - cbn [Nat.iter nat_rect]; change (Z.of_nat 0) with 0.
    rewrite Z.pow_0_r, Z.mul_1_r, Z.mod_small; [reflexivity|exact H].
  - change (Nat.iter (S k) jumpSector s) with (jumpSector (Nat.iter k jumpSector s)).
    rewrite seed_jumpSector, IH, next_seed_mod by (apply Z.mod_pos_bound; lia).
    rewrite Z.mul_mod_idemp_l by lia.
    rewrite Nat2Z.inj_succ, Z.pow_succ_r by lia; f_equal; lia.
Qed.

Lemma seed_after_jumps_witness :
  0 <= seed scene0 < 2147483647 /\
  seed (Nat.iter 3 jumpSector scene0) = (seed scene0 * 16807 ^ 3) mod 2147483647.
Proof.
  assert (E : seed scene0 = 1000) by (vm_compute; reflexivity).
  assert (H : 0 <= seed scene0 < 2147483647) by (rewrite E; lia).
  split; [exact H|exact (seed_after_jumps 3 scene0 H)].
Defined.

(** ** create *)

Lemma js_and_65535 (now : Z) : js_and now 65535 = now mod 65536.
Proof.
  unfold js_and; change (ToInt32 65535) with (Z.ones 16).
  rewrite Z.land_ones by lia; change (2 ^ 16) with 65536.
  assert (E : ToInt32 now mod 65536 = now mod 65536).
  { unfold ToInt32.
    pose proof (Z.div_mod (now + 2147483648) 4294967296 ltac:(lia)) as D.
    replace ((now + 2147483648) mod 4294967296 - 2147483648)
      with (now + (- (65536 * ((now + 2147483648) / 4294967296))) * 65536) by lia.
    apply Z_mod_plus_full. }
  rewrite E; apply ToInt32_small.
  pose proof (Z.mod_pos_bound now 65536 eq_refl); lia.
Qed.

Lemma create_fields (cfg : GameConfig) (w h : num) (g : GFX) (now : Z) (r : RND)
      (m : Ambient) :
  let s := state_of (create cfg w h g now r m) in
  player s = Player.mk (w / 2) (h * 0.7) 0 0 3 false 0 /\
  bullets s = mkGroup [] (-1) /\ enemies s = [] /\
  seed s = js_and now 65535 /\
  sector s = fst (SectorFactory (js_and now 65535) m) /\
  timer s = 0%float /\ photo s = false /\ delayed s = [] /\ rnd s = r /\
  width s = w /\ height s = h /\ gfx s = g.
Proof.
  unfold create; destruct (input_gamepad cfg), (gfx_bloom g), (gfx_vignette g); repeat split.
Qed.

Lemma effects_create (cfg : GameConfig) (w h : num) (g : GFX) (now : Z) (r : RND)
      (m : Ambient) :
  let s := state_of (create cfg w h g now r m) in
  exists l, (forallb quiet l = true /\ forallb peaceful l = true) /\
            effects s
            = l ++ (if input_gamepad cfg
                    then [Emit_updateHud (Some 0) (Some 3) (Some (Sector.name (sector s)))]
                    else []).
Proof.
  unfold create; destruct (input_gamepad cfg), (gfx_bloom g), (gfx_vignette g); cbv zeta;
    cbn [state_of]; eexists; (split; [|try rewrite app_nil_r; reflexivity]); split; reflexivity.
Qed.


(** ** What a session keeps *)

Lemma evolves_refl (s : Scene) : evolves s s.
Proof.
  split; [auto|split; [lia|split; [lia|]]].
  exists []; rewrite app_nil_r; auto.
Qed.

Lemma evolves_trans (s1 s2 s3 : Scene) : evolves s1 s2 -> evolves s2 s3 -> evolves s1 s3.
Proof.
  intros (G1 & D1 & H1 & l1 & E1 & S1) (G2 & D2 & H2 & l2 & E2 & S2).
  split; [auto|split; [lia|split; [lia|]]].
  exists (l1 ++ l2); rewrite E2, E1, app_assoc; split; [reflexivity|].
  intros u Hu; unfold hud_replay; rewrite fold_left_app; apply S2, S1, Hu.
Qed.

Lemma hud_replay_quiet (l : list Effect) (u : Hud) :
  forallb quiet l = true -> hud_replay l u = u.
Proof.
  revert u; induction l as [|e l IH]; intros u H; [reflexivity|].
  cbn [forallb] in H; apply andb_prop in H; destruct H as [He Hl].
  cbn [hud_replay fold_left]; destruct e; try discriminate He; apply IH, Hl.
Qed.

(** A step that the HUD does not hear of and that leaves what the HUD
    shows alone. *)
Lemma evolves_quietly (s s' : Scene) (l : list Effect) :
  (good s -> good s') ->
  effects s' = effects s ++ l -> forallb quiet l = true ->
  Player.discoveries (player s') = Player.discoveries (player s) ->
  Player.hull (player s') = Player.hull (player s) ->
  sector s' = sector s -> photo s' = photo s ->
  evolves s s'.
Proof.
  intros G E Q D H C P; split; [auto|split; [lia|split; [lia|]]].
  exists l; split; [exact E|]; intros u (U1 & U2 & U3 & U4 & U5).
  rewrite (hud_replay_quiet l u Q); unfold shown; rewrite D, H, C, P; auto.
Qed.

Lemma evolves_when (b : bool) (f : Scene -> Scene) (s : Scene) :
  (forall s, evolves s (f s)) -> evolves s (if b then f s else s).
Proof. intros H; destruct b; [apply H|apply evolves_refl]. Qed.

Lemma evolves_fold {A} (f : Scene -> A -> Scene) (l : list A) :
  (forall s a, evolves s (f s a)) -> forall s, evolves s (fold_left f l s).
Proof.
  intros H; induction l as [|a l IH]; intros s; cbn [fold_left].
  - apply evolves_refl.
  - eapply evolves_trans; [apply H|apply IH].
Qed.

Ltac scene_cbn :=
  cbn [width height gfx player bullets enemies seed sector starGroup planets nebulae
       scanRing timer photo bloom_intensity delayed rnd page nextId effects
       set_player set_bullets set_enemies set_seed set_sector set_starGroup
       set_planets set_nebulae set_scanRing set_timer set_photo set_bloom_intensity
       set_delayed set_rnd set_page set_nextId set_effects emit
       with_velocity with_hull with_shield with_discoveries
       Player.x Player.y Player.vx Player.vy Player.hull Player.shield
       Player.discoveries children maxSize] in *.

Ltac four := split; [|split; [|split]].

Lemma loadSector_fields (sd : Z) (s : Scene) :
  let made := SectorFactory sd (page s) in
  sector (loadSector sd s) = fst made /\
  planets (loadSector sd s) = fst (add_planets (Sector.planets (fst made)) (snd made)) /\
  nebulae (loadSector sd s) = map add_nebula (Sector.nebulae (fst made)) /\
  player (loadSector sd s) = player s /\ bullets (loadSector sd s) = bullets s /\
  enemies (loadSector sd s) = enemies s /\ seed (loadSector sd s) = seed s /\
  delayed (loadSector sd s) = delayed s /\ nextId (loadSector sd s) = nextId s /\
  effects (loadSector sd s) = effects s /\ photo (loadSector sd s) = photo s.
Proof. cbv zeta; repeat split. Qed.

Lemma add_planets_at (ps : list Sector.Planet) :
  forall m, map sprite_at (fst (add_planets ps m))
            = flat_map (fun p => [planet_at p; planet_at p]) ps.
Proof.
  induction ps as [|p ps IH]; intros m; [reflexivity|].
  cbn [add_planets]; cbv zeta; cbn [fst map flat_map app].
  rewrite IH; reflexivity.
Qed.

Lemma steady_same (s s' : Scene) :
  player s' = player s -> delayed s' = delayed s -> enemies s' = enemies s ->
  bullets s' = bullets s -> nextId s' = nextId s -> steady s -> steady s'.
Proof. intros Ep Ed Ee Eb Ei [? ? ? ? ? ?]; constructor; rewrite ?Ep, ?Ed, ?Ee, ?Eb, ?Ei; assumption. Qed.

Lemma good_same_world (s s' : Scene) :
  seed s' = seed s -> sector s' = sector s -> planets s' = planets s ->
  nebulae s' = nebulae s -> good s -> steady s' -> good s'.
Proof. intros Es Ec Ep En [? ? ? ? ?] St; constructor; rewrite ?Es, ?Ec, ?Ep, ?En; assumption. Qed.

(** A scene whose sector has just been loaded for its seed. *)
Lemma good_loadSector (s : Scene) :
  0 <= seed s < 2147483647 -> steady s -> good (loadSector (seed s) s).
Proof.
  intros Hseed St.
  destruct (loadSector_fields (seed s) s)
    as (Ec & Ep & En & Epl & Eb & Ee & Es & Ed & Ei & _).
  constructor; rewrite ?Ec, ?Ep, ?En, ?Es.
  - exact Hseed.
  - apply SectorFactory_has_shape.
  - apply add_planets_at.
  - reflexivity.
  - now apply (steady_same s).
Qed.

Lemma jumpSector_is (s : Scene) :
  jumpSector s
  = emit (Emit_updateHud None None
            (Some (Sector.name (sector (loadSector (next_seed (seed s))
                                                   (set_seed (next_seed (seed s)) s))))))
         (loadSector (next_seed (seed s)) (set_seed (next_seed (seed s)) s)).
Proof. reflexivity. Qed.

Lemma evolves_jumpSector (s : Scene) : evolves s (jumpSector s).
Proof.
  rewrite jumpSector_is.
  set (s1 := set_seed (next_seed (seed s)) s).
  change (next_seed (seed s)) with (seed s1).
  destruct (loadSector_fields (seed s1) s1)
    as (Ec & Ep & En & Epl & Eb & Ee & Es & Ed & Ei & Ef & Eph).
  set (s2 := loadSector (seed s1) s1) in *.
  four.
  - intros G.
    apply (good_same_world s2); try reflexivity.
    + apply good_loadSector.
      * apply (next_seed_exact (seed s) (seed s)); apply G.
      * apply (steady_same s); try reflexivity; apply G.
    + apply (steady_same s2); try reflexivity.
      apply (steady_same s); [exact Epl|exact Ed|exact Ee|exact Eb|exact Ei|apply G].
  - scene_cbn; rewrite Epl; reflexivity.
  - scene_cbn; rewrite Epl; reflexivity.
  - eexists; split; [scene_cbn; rewrite Ef; reflexivity|].
    intros u (U1 & U2 & U3 & U4 & U5); unfold shown; scene_cbn.
    rewrite Epl, Eph; cbn [hud_replay fold_left hud_receive on_updateHud
      disc_text hull_text sector_text hud_hidden help_hidden]; auto.
Qed.

Lemma Forall_lt_S {A} (f : A -> nat) (n k : nat) (l : list A) :
  Forall (fun a => (f a < n)%nat) l -> Forall (fun a => (f a < n + k)%nat) l.
Proof. apply Forall_impl; intros a H; lia. Qed.

Lemma NoDup_snoc_fresh {A} (f : A -> nat) (n : nat) (l : list A) (a : A) :
  NoDup (map f l) -> Forall (fun a => (f a < n)%nat) l -> f a = n ->
  NoDup (map f (l ++ [a])).
Proof.
  intros Hn Hl Ha; rewrite map_app; cbn [map].
  apply NoDup_app; [exact Hn|repeat constructor; intros []|].
  intros x Hx [Hx'|[]]; subst x.
  apply in_map_iff in Hx; destruct Hx as (b & Hb & Hin).
  rewrite Forall_forall in Hl; specialize (Hl b Hin); lia.
Qed.

Lemma evolves_fire (s : Scene) : evolves s (fire s).
Proof.
  assert (Hq : exists l, effects (fire s) = effects s ++ l /\ forallb quiet l = true /\
                         player (fire s) = player s /\ sector (fire s) = sector s /\
                         photo (fire s) = photo s).
  { unfold fire; destruct (Group_get _ _ _ _) as [[[[before b] after] [|]]|].
    - exists [AddBullet (b_id b); AudioPing]; scene_cbn; rewrite <- app_assoc; auto.
    - exists [AudioPing]; scene_cbn; auto.
    - exists []; rewrite app_nil_r; auto. }
  destruct Hq as (l & E & Q & Ep & Ec & Eph).
  apply (evolves_quietly s (fire s) l); try assumption; try (rewrite Ep; reflexivity).
  intros G; destruct (good_steady s G) as [Hsh Hen [Ha Hm] Hc [Hbn Hbl] [Hen' Hel]].
  assert (Hf : isFull (bullets s) = false) by (unfold isFull; rewrite Hm; reflexivity).
  rewrite (fire_created s Ha Hf).
  apply (good_same_world s); try reflexivity; [exact G|].
  constructor; scene_cbn; try assumption.
  - split; [|exact Hm]; unfold all_active in *; scene_cbn.
    rewrite forallb_app, Ha; reflexivity.
  - split.
    + apply (NoDup_snoc_fresh b_id (nextId s)); auto.
    + apply Forall_app; split.
      * rewrite <- Nat.add_1_r; now apply Forall_lt_S.
      * repeat constructor; cbn; lia.
  - split; [exact Hen'|]; rewrite <- Nat.add_1_r; now apply Forall_lt_S.
Qed.

Lemma evolves_shield (s : Scene) : evolves s (shield s).
Proof.
  unfold shield; destruct (Player.shield (player s)) eqn:E; [apply evolves_refl|].
  apply (evolves_quietly _ _ []); try reflexivity; [|scene_cbn; now rewrite app_nil_r].
  intros G; apply (good_same_world s); try reflexivity; [exact G|].
  destruct (good_steady s G) as [Hsh Hen Hb Hc Hbi Hei].
  constructor; scene_cbn; try assumption.
  right; split; [reflexivity|].
  destruct Hsh as [[_ ->]|[Hs _]]; [eexists; reflexivity|congruence].
Qed.

Lemma evolves_togglePhoto (s : Scene) : evolves s (togglePhoto s).
Proof.
  unfold togglePhoto; four.
  - intros G; apply (good_same_world s); try reflexivity; [exact G|].
    apply (steady_same s); try reflexivity; apply G.
  - scene_cbn; lia.
  - scene_cbn; lia.
  - eexists; split; [scene_cbn; reflexivity|].
    intros u (U1 & U2 & U3 & U4 & U5); unfold shown; scene_cbn.
    cbn [hud_replay fold_left hud_receive on_photo
      disc_text hull_text sector_text hud_hidden help_hidden]; auto.
Qed.

Lemma evolves_pause (s : Scene) : evolves s (emit Scene_pause s).
Proof.
  apply (evolves_quietly _ _ [Scene_pause]); try reflexivity.
  intros G; apply (good_same_world s); try reflexivity; [exact G|].
  apply (steady_same s); try reflexivity; apply G.
Qed.

Lemma evolves_scan (s : Scene) : evolves s (scan s).
Proof.
  unfold scan; cbv zeta.
  set (s1 := emit Tween_scanRing (set_scanRing _ s)).
  assert (H1 : evolves s s1).
  { apply (evolves_quietly _ _ [Tween_scanRing]); try reflexivity.
    intros G; apply (good_same_world s); try reflexivity; [exact G|].
    apply (steady_same s); try reflexivity; apply G. }
  destruct (existsb _ _); [|exact H1].
  eapply evolves_trans; [exact H1|].
  set (s2 := emit _ (set_player _ s1)).
  assert (H2 : evolves s1 s2).
  { subst s2; four.
    - intros G; apply (good_same_world s1); try reflexivity; [exact G|].
      destruct (good_steady s1 G) as [Hsh Hen Hb Hc Hbi Hei].
      constructor; scene_cbn; try assumption; lia.
    - scene_cbn; lia.
    - scene_cbn; lia.
    - eexists; split; [scene_cbn; reflexivity|].
      intros u (U1 & U2 & U3 & U4 & U5); unfold shown; scene_cbn.
      cbn [hud_replay fold_left hud_receive on_updateHud
        disc_text hull_text sector_text hud_hidden help_hidden]; auto. }
  destruct (_ =? 0); [|exact H2].
  eapply evolves_trans; [exact H2|apply evolves_jumpSector].
Qed.

Lemma evolves_movement (inp : Input) (s : Scene) : evolves s (movement inp s).
Proof.
  apply (evolves_quietly _ _ []); try reflexivity; [|unfold movement; scene_cbn; now rewrite app_nil_r].
  intros G; apply (good_same_world s); try reflexivity; [exact G|].
  destruct (good_steady s G) as [Hsh Hen Hb Hc Hbi Hei].
  constructor; unfold movement; scene_cbn; assumption.
Qed.

Lemma forallb_filter {A} (p q : A -> bool) (l : list A) :
  forallb p l = true -> forallb p (filter q l) = true.
Proof.
  induction l as [|a l IH]; [reflexivity|]; cbn [forallb filter].
  intros H; apply andb_prop in H; destruct H as [Ha Hl].
  destruct (q a); cbn [forallb]; rewrite ?Ha; auto.
Qed.

Lemma Forall_filter {A} (P : A -> Prop) (q : A -> bool) (l : list A) :
  Forall P l -> Forall P (filter q l).
Proof.
  intros H; apply Forall_forall; intros a Ha.
  apply filter_In in Ha; rewrite Forall_forall in H; apply H, Ha.
Qed.

Lemma NoDup_map_filter {A} (f : A -> nat) (q : A -> bool) (l : list A) :
  NoDup (map f l) -> NoDup (map f (filter q l)).
Proof.
  induction l as [|a l IH]; [auto|]; cbn [map filter]; intros H.
  inversion H as [|? ? Hn Hl]; subst.
  destruct (q a); [|auto]; cbn [map]; constructor; [|auto].
  intros Hin; apply Hn; apply in_map_iff in Hin; destruct Hin as (b & Hb & Hin).
  apply in_map_iff; exists b; split; [exact Hb|]; apply filter_In in Hin; apply Hin.
Qed.

Lemma forallb_quiet_map {A} (f : A -> Effect) (l : list A) :
  (forall a, quiet (f a) = true) -> forallb quiet (map f l) = true.
Proof. intros H; induction l as [|a l IH]; [reflexivity|]; cbn; rewrite H; exact IH. Qed.

(** Bullets leave the group. *)
Lemma steady_filter_bullets (q : Bullet -> bool) (s s' : Scene) :
  player s' = player s -> delayed s' = delayed s -> enemies s' = enemies s ->
  nextId s' = nextId s ->
  bullets s' = mkGroup (filter q (children (bullets s))) (maxSize (bullets s)) ->
  steady s -> steady s'.
Proof.
  intros Ep Ed Ee Ei Eb [Hsh Hen [Ha Hm] Hc [Hbn Hbl] Hei].
  constructor; rewrite ?Ep, ?Ed, ?Ee, ?Ei, ?Eb; scene_cbn; try assumption.
  - split; [|exact Hm]; unfold all_active; scene_cbn; now apply forallb_filter.
  - split; [now apply NoDup_map_filter|now apply Forall_filter].
Qed.

(** Enemies leave the scene. *)
Lemma steady_filter_enemies (q : Enemy -> bool) (s s' : Scene) :
  player s' = player s -> delayed s' = delayed s -> bullets s' = bullets s ->
  nextId s' = nextId s -> enemies s' = filter q (enemies s) ->
  steady s -> steady s'.
Proof.
  intros Ep Ed Eb Ei Ee [Hsh Hen Hb Hc Hbi [Hen' Hel]].
  constructor; rewrite ?Ep, ?Ed, ?Ee, ?Ei, ?Eb; try assumption.
  - now apply Forall_filter.
  - split; [now apply NoDup_map_filter|now apply Forall_filter].
Qed.

Lemma evolves_destroy_bullet (b : nat) (s : Scene) : evolves s (destroy_bullet b s).
Proof.
  unfold destroy_bullet; destruct (existsb _ _); [|apply evolves_refl].
  apply (evolves_quietly _ _ [DestroyBullet b]); try reflexivity.
  intros G; apply (good_same_world s); try reflexivity; [exact G|].
  eapply (steady_filter_bullets _ s); try reflexivity; apply G.
Qed.

Lemma evolves_iterate_cleanup (n : nat) :
  forall i s, evolves s (state_of (iterate_cleanup n i s)).
Proof.
  induction n as [|n IH]; intros i s; cbn [iterate_cleanup]; [apply evolves_refl|].
  destruct (nth_error _ i) as [b|]; [|apply evolves_refl].
  destruct (off b); [|apply IH].
  eapply evolves_trans; [apply evolves_destroy_bullet|apply IH].
Qed.

Lemma evolves_bullets_cleanup (s : Scene) : evolves s (state_of (bullets_cleanup s)).
Proof. apply evolves_iterate_cleanup. Qed.

Lemma evolves_destroy_enemy (e : nat) (s : Scene) : evolves s (destroy_enemy e s).
Proof.
  unfold destroy_enemy; destruct (existsb _ _); [|apply evolves_refl].
  apply (evolves_quietly _ _ [DestroyEnemy e]); try reflexivity.
  intros G; apply (good_same_world s); try reflexivity; [exact G|].
  eapply (steady_filter_enemies _ s); try reflexivity; apply G.
Qed.

Lemma batch_ok (s : Scene) :
  Forall (fun e => 1 <= e_hp e <= 4 /\
                   (e_type e = "scout" \/ e_type e = "tank" \/ e_type e = "pulsar"))
         (batch s) /\
  map e_id (batch s) = [nextId s + 0; nextId s + 1; nextId s + 2]%nat.
Proof.
  split; [|reflexivity].
  pose proof (weightedPick_member (rnd s)) as Hin; unfold batch.
  set (type := fst (weightedPick _ (rnd s))) in *.
  assert (Ht : type = "scout" \/ type = "tank" \/ type = "pulsar")
    by (cbn [In] in Hin; intuition congruence).
  assert (Hhp : 1 <= (if String.eqb type "tank" then 4 else 2) <= 4)
    by (destruct (String.eqb type "tank"); lia).
  cbn [map]; repeat (apply Forall_cons; [split; [exact Hhp|exact Ht]|]); constructor.
Qed.

Lemma evolves_spawn (s : Scene) : evolves s (spawn s).
Proof.
  apply (evolves_quietly _ _ (map (fun e => AddEnemy (e_id e)) (batch s))); try reflexivity.
  intros G; apply (good_same_world s); try reflexivity; [exact G|].
  destruct (good_steady s G) as [Hsh Hen Hb Hc [Hbn Hbl] [Hen' Hel]].
  destruct (batch_ok s) as [Hok Hids].
  constructor; try assumption.
  - rewrite spawn_enemies; apply Forall_app; split; assumption.
  - split; [exact Hbn|]; change (nextId (spawn s)) with (nextId s + 3)%nat.
    now apply Forall_lt_S.
  - rewrite spawn_enemies; change (nextId (spawn s)) with (nextId s + 3)%nat; split.
    + rewrite map_app, Hids; apply NoDup_app; [exact Hen'| |].
      * repeat constructor; cbn [In]; lia.
      * intros x Hx Hx'; apply in_map_iff in Hx; destruct Hx as (b & Hb' & Hin).
        rewrite Forall_forall in Hel; specialize (Hel b Hin).
        cbn [In] in Hx'; lia.
    + apply Forall_app; split; [now apply Forall_lt_S|].
      apply Forall_forall; intros e He.
      assert (Hm : In (e_id e) (map e_id (batch s))) by (apply in_map; exact He).
      rewrite Hids in Hm; cbn [In] in Hm; lia.
Qed.

Lemma evolves_director_update (delta : num) (s : Scene) : evolves s (director_update delta s).
Proof.
  assert (Ht : forall t, evolves s (set_timer t s)).
  { intros t; apply (evolves_quietly _ _ []); try reflexivity; [|scene_cbn; now rewrite app_nil_r].
    intros G; apply (good_same_world s); try reflexivity; [exact G|].
    apply (steady_same s); try reflexivity; apply G. }
  unfold director_update; cbv zeta; destruct (_ <? _)%float; [|apply Ht].
  eapply evolves_trans; [apply Ht|apply evolves_spawn].
Qed.

Lemma evolves_gameOver (s : Scene) : evolves s (gameOver s).
Proof.
  apply (evolves_quietly _ _ [Scene_stop "HUD"; Scene_start "Title"]); try reflexivity.
  - intros G; apply (good_same_world s); try reflexivity; [exact G|].
    apply (steady_same s); try reflexivity; apply G.
  - unfold gameOver; scene_cbn; rewrite <- app_assoc; reflexivity.
Qed.

Lemma evolves_playerHit (e : nat) (s : Scene) : evolves s (playerHit e s).
Proof.
  unfold playerHit; cbv zeta.
  eapply evolves_trans; [apply evolves_destroy_enemy|].
  set (s1 := destroy_enemy e s).
  destruct (Player.shield (player s1)) eqn:Esh; [apply evolves_refl|].
  set (s2 := emit _ (set_player _ s1)).
  assert (H2 : evolves s1 s2).
  { subst s2; four.
    - intros G; apply (good_same_world s1); try reflexivity; [exact G|].
      destruct (good_steady s1 G) as [Hsh Hen Hb Hc Hbi Hei].
      constructor; scene_cbn; try assumption; lia.
    - scene_cbn; lia.
    - scene_cbn; lia.
    - eexists; split; [scene_cbn; reflexivity|].
      intros u (U1 & U2 & U3 & U4 & U5); unfold shown; scene_cbn.
      cbn [hud_replay fold_left hud_receive on_updateHud
        disc_text hull_text sector_text hud_hidden help_hidden]; auto. }
  destruct (_ <=? 0); [|exact H2].
  eapply evolves_trans; [exact H2|apply evolves_gameOver].
Qed.

Lemma set_hp_id (id : nat) (hp : Z) (e : Enemy) : e_id (set_hp id hp e) = e_id e.
Proof. unfold set_hp; destruct (Nat.eqb _ _); reflexivity. Qed.

Lemma map_set_hp_ids (id : nat) (hp : Z) (l : list Enemy) :
  map e_id (map (set_hp id hp) l) = map e_id l.
Proof. rewrite map_map; apply map_ext; intros e; apply set_hp_id. Qed.

Lemma set_hp_type (id : nat) (hp : Z) (e : Enemy) : e_type (set_hp id hp e) = e_type e.
Proof. unfold set_hp; destruct (Nat.eqb _ _); reflexivity. Qed.

Lemma find_enemy_hp (id : nat) (l : list Enemy) (en : Enemy) :
  find (fun e => Nat.eqb (e_id e) id) l = Some en -> In en l /\ e_id en = id.
Proof.
  intros H; apply find_some in H; destruct H as [Hin Heq].
  split; [exact Hin|now apply Nat.eqb_eq].
Qed.

(** The enemies after a hit that is not lethal. *)
Lemma steady_after_hit (id : nat) (hp : Z) (s : Scene) :
  1 <= hp <= 4 -> steady s -> steady (set_enemies (map (set_hp id hp) (enemies s)) s).
Proof.
  intros Hhp [Hsh Hen Hb Hc Hbi [Hen' Hel]]; constructor; scene_cbn; try assumption.
  - apply Forall_map; revert Hen; apply Forall_impl; intros e [H1 H2].
    rewrite set_hp_type; split; [|exact H2].
    unfold set_hp; destruct (Nat.eqb _ _); [exact Hhp|exact H1].
  - split; [rewrite map_set_hp_ids; exact Hen'|].
    apply Forall_map; revert Hel; apply Forall_impl; intros e H.
    rewrite set_hp_id; exact H.
Qed.

(** The enemies after a lethal hit: the one hit is gone, the others are
    as they were. *)
Lemma filter_after_set_hp (id : nat) (hp : Z) (l : list Enemy) :
  filter (fun e => negb (Nat.eqb (e_id e) id)) (map (set_hp id hp) l)
  = filter (fun e => negb (Nat.eqb (e_id e) id)) l.
Proof.
  induction l as [|e l IH]; [reflexivity|]; cbn [map filter].
  rewrite set_hp_id; destruct (Nat.eqb (e_id e) id) eqn:E; cbn [negb]; [exact IH|].
  rewrite IH; unfold set_hp; rewrite E; reflexivity.
Qed.

Lemma existsb_after_set_hp (id : nat) (hp : Z) (l : list Enemy) :
  existsb (fun e => Nat.eqb (e_id e) id) (map (set_hp id hp) l)
  = existsb (fun e => Nat.eqb (e_id e) id) l.
Proof.
  induction l as [|e l IH]; [reflexivity|]; cbn [map existsb].
  rewrite set_hp_id, IH; reflexivity.
Qed.

Lemma evolves_hitEnemy (b e : nat) (s : Scene) : evolves s (hitEnemy b e s).
Proof.
  unfold hitEnemy; cbv zeta.
  eapply evolves_trans; [apply evolves_destroy_bullet|].
  set (s1 := destroy_bullet b s).
  destruct (find_enemy e s1) as [en|] eqn:Ef; [|apply evolves_refl].
  destruct (find_enemy_hp _ _ _ Ef) as [Hin Hid].
  destruct (e_hp en - 1 <=? 0) eqn:Ehp.
  - (* lethal *)
    unfold destroy_enemy; scene_cbn.
    rewrite existsb_after_set_hp, filter_after_set_hp.
    assert (Hex : existsb (fun e0 => Nat.eqb (e_id e0) e) (enemies s1) = true).
    { apply existsb_exists; exists en; split; [exact Hin|now apply Nat.eqb_eq]. }
    rewrite Hex; fold s1; four; scene_cbn.
    + intros G; apply (good_same_world s1); try reflexivity; [exact G|].
      assert (St : steady (set_enemies
                  (filter (fun e0 => negb (Nat.eqb (e_id e0) e)) (enemies s1)) s1))
        by (eapply (steady_filter_enemies _ s1); try reflexivity; apply G).
      destruct St as [Hsh Hen Hb Hc Hbi Hei]; scene_cbn.
      constructor; scene_cbn; try assumption; lia.
    + lia.
    + lia.
    + eexists; split; [rewrite <- app_assoc; reflexivity|].
      intros u (U1 & U2 & U3 & U4 & U5); unfold shown; scene_cbn.
      cbn [hud_replay fold_left hud_receive on_updateHud app
        disc_text hull_text sector_text hud_hidden help_hidden]; auto.
  - (* the enemy survives *)
    apply (evolves_quietly _ _ []); try reflexivity; [|scene_cbn; now rewrite app_nil_r].
    intros G; apply (good_same_world s1); try reflexivity; [exact G|].
    apply steady_after_hit; [|apply G].
    apply Z.leb_gt in Ehp.
    pose proof (steady_enemies s1 (good_steady s1 G)) as Hen.
    rewrite Forall_forall in Hen; destruct (Hen en Hin) as [Hr _]; lia.
Qed.

Lemma clock_update_frame (delta : num) (s : Scene) :
  effects (clock_update delta s) = effects s /\
  Player.discoveries (player (clock_update delta s)) = Player.discoveries (player s) /\
  Player.hull (player (clock_update delta s)) = Player.hull (player s) /\
  sector (clock_update delta s) = sector s /\ photo (clock_update delta s) = photo s /\
  seed (clock_update delta s) = seed s /\ planets (clock_update delta s) = planets s /\
  nebulae (clock_update delta s) = nebulae s.
Proof. unfold clock_update; cbv zeta; destruct (existsb _ _); repeat split. Qed.

Lemma evolves_clock_update (delta : num) (s : Scene) : evolves s (clock_update delta s).
Proof.
  destruct (clock_update_frame delta s) as (E & D & H & C & P & Es & Ep & En).
  apply (evolves_quietly _ _ []); auto; [|now rewrite app_nil_r].
  intros G; apply (good_same_world s); auto.
  destruct (good_steady s G) as [Hsh Hen Hb Hc Hbi Hei].
  unfold clock_update; cbv zeta.
  destruct Hsh as [[Hs Hd]|[Hs [t Hd]]]; rewrite Hd; cbn [map filter existsb].
  - constructor; scene_cbn; try assumption; left; auto.
  - rewrite orb_false_r; destruct (is_due (age delta t)); cbn [negb];
      constructor; scene_cbn; try assumption.
    + left; auto.
    + right; split; [exact Hs|eexists; reflexivity].
Qed.

Lemma evolves_integrate pl bl en (s : Scene) : evolves s (integrate pl bl en s).
Proof.
  destruct pl as [[[x y] vx] vy]; unfold integrate; cbv zeta.
  apply (evolves_quietly _ _ []); try reflexivity; [|scene_cbn; now rewrite app_nil_r].
  intros G; apply (good_same_world s); try reflexivity; [exact G|].
  destruct (good_steady s G) as [Hsh Hen [Ha Hm] Hc [Hbn Hbl] [Hen' Hel]].
  constructor; scene_cbn; try assumption.
  - apply Forall_map; revert Hen; apply Forall_impl; intros e H; exact H.
  - split; [|exact Hm]; unfold all_active in *; scene_cbn.
    rewrite forallb_forall in *; intros b Hb; apply in_map_iff in Hb.
    destruct Hb as (b0 & <- & Hb0); apply (Ha b0 Hb0).
  - split; [rewrite map_map; exact Hbn|].
    apply Forall_map; revert Hbl; apply Forall_impl; intros b H; exact H.
  - split; [rewrite map_map; exact Hen'|].
    apply Forall_map; revert Hel; apply Forall_impl; intros e H; exact H.
Qed.

Lemma evolves_collide hits touching (s : Scene) : evolves s (collide hits touching s).
Proof.
  unfold collide; cbv zeta.
  eapply evolves_trans; [|apply evolves_fold].
  - apply evolves_fold; intros s0 be.
    destruct (_ && _); [apply evolves_hitEnemy|apply evolves_refl].
  - intros s0 e; destruct (enemy_alive e s0); [apply evolves_playerHit|apply evolves_refl].
Qed.

Lemma evolves_pad_actions inp (s : Scene) : evolves s (state_of (pad_actions inp s)).
Proof.
  unfold pad_actions; destruct (pad inp) as [pd|]; [|apply evolves_refl].
  cbn [state_of]; apply (evolves_when _ fire), evolves_fire.
Qed.

Lemma evolves_keyboard_actions inp (s : Scene) : evolves s (keyboard_actions inp s).
Proof.
  unfold keyboard_actions; cbv zeta.
  eapply evolves_trans; [|apply (evolves_when _ (emit Scene_pause)), evolves_pause].
  eapply evolves_trans; [|apply (evolves_when _ togglePhoto), evolves_togglePhoto].
  eapply evolves_trans; [|apply (evolves_when _ shield), evolves_shield].
  eapply evolves_trans; [|apply (evolves_when _ scan), evolves_scan].
  apply (evolves_when _ fire), evolves_fire.
Qed.

Lemma evolves_update inp delta (s : Scene) : evolves s (state_of (update inp delta s)).
Proof.
  unfold update.
  pose proof (evolves_pad_actions inp s) as H1.
  destruct (pad_actions inp s) as [s1|s1]; cbn [and_then state_of] in *; [|exact H1].
  set (s2 := keyboard_actions inp (movement inp s1)).
  assert (H2 : evolves s s2).
  { eapply evolves_trans; [exact H1|].
    eapply evolves_trans; [apply evolves_movement|apply evolves_keyboard_actions]. }
  pose proof (evolves_bullets_cleanup s2) as H3.
  destruct (bullets_cleanup s2) as [s3|s3]; cbn [and_then state_of] in *.
  - eapply evolves_trans; [exact H2|].
    eapply evolves_trans; [exact H3|apply evolves_director_update].
  - eapply evolves_trans; [exact H2|exact H3].
Qed.

Lemma evolves_step (s : Scene) (st : Step) : evolves s (step s st).
Proof.
  destruct st; cbn [step];
    [apply evolves_update|apply evolves_collide|apply evolves_clock_update
    |apply evolves_integrate].
Qed.

Lemma evolves_run (steps : list Step) (s : Scene) : evolves s (run steps s).
Proof. apply evolves_fold, evolves_step. Qed.

Lemma good_emit (e : Effect) (s : Scene) : good s -> good (emit e s).
Proof.
  intros G; apply (good_same_world s); try reflexivity; [exact G|].
  apply (steady_same s); try reflexivity; apply G.
Qed.

Lemma good_started (sd : Z) (e : Effect) (s0 : Scene) :
  0 <= sd < 2147483647 -> steady s0 ->
  good (emit e (loadSector (seed (set_seed sd s0)) (set_seed sd s0))).
Proof.
  intros Hsd St; apply good_emit, good_loadSector; [exact Hsd|].
  now apply (steady_same s0).
Qed.

Lemma steady_blank (w h : num) (g : GFX) (r : RND) (m : Ambient) : steady (blank w h g r m).
Proof.
  constructor; unfold blank; scene_cbn;
    [left; auto|constructor|split; reflexivity|lia|split; constructor|split; constructor].
Qed.

Lemma good_create (cfg : GameConfig) (w h : num) (g : GFX) (now : Z) (r : RND)
      (m : Ambient) :
  good (state_of (create cfg w h g now r m)).
Proof.
  assert (Hs : 0 <= js_and now 65535 < 2147483647).
  { rewrite js_and_65535; pose proof (Z.mod_pos_bound now 65536 eq_refl); lia. }
  pose proof (steady_blank w h g r m) as St.
  unfold create; cbv zeta.
  destruct (input_gamepad cfg); cbn [state_of].
  - destruct (gfx_bloom g), (gfx_vignette g); apply good_started; try exact Hs;
      try exact St; apply (steady_same (blank w h g r m)); try reflexivity; exact St.
  - destruct (gfx_bloom g), (gfx_vignette g); apply good_loadSector; try exact Hs;
      apply (steady_same (blank w h g r m)); try reflexivity; exact St.
Qed.

(** ** What holds throughout a session *)

Lemma good_session w h g now r m steps : good (session w h g now r m steps).
Proof. apply (evolves_run steps (state_of (create with_gamepad w h g now r m))), good_create. Qed.

(** X8.  Throughout a session, whichever ticks threw, the seed stays within 0 <= seed < 2^31 - 1,
    where the derivation of the next seed is exact; the sector is one made
    for the current seed (its name is "Sector <seed>", it has three layers
    of 200 stars); the scene's planet sprites are a planet and a ring at
    the position of each planet of that sector, and its nebula rectangles
    are 400 x 300 at the position of each of the sector's nebulae, with
    its color and alpha. *)
Theorem session_sector_matches_seed w h g now r m steps :
  let s := session w h g now r m steps in
  0 <= seed s < 2147483647 /\
  sector_shape (seed s) (sector s) /\
  Sector.name (sector s) = sector_name (seed s) /\
  map sprite_at (planets s)
  = flat_map (fun p => [planet_at p; planet_at p]) (Sector.planets (sector s)) /\
  List.length (planets s) = (2 * List.length (Sector.planets (sector s)))%nat /\
  nebulae s
  = map (fun n => mkRect (Sector.nx n) (Sector.ny n) 400 300 (Sector.color n) (Sector.alpha n))
        (Sector.nebulae (sector s)).
Proof.
  intros s; destruct (good_session w h g now r m steps) as [Hs Hc Hp Hn _]; fold s in Hs, Hc, Hp, Hn.
  repeat split; try assumption; try apply Hs; try apply Hc.
  apply (f_equal (@List.length _)) in Hp; rewrite length_map in Hp; rewrite Hp.
  clear; induction (Sector.planets (sector s)) as [|p l IH]; [reflexivity|].
  cbn [flat_map app List.length]; rewrite IH; lia.
Qed.

Lemma existsb_in_range (s : Scene) (l : list Sprite) :
  existsb (in_range s) l
  = existsb (fun xy => (Distance_Between (Player.x (player s)) (Player.y (player s))
                                         (fst xy) (snd xy) <? 150)%float)
            (map sprite_at l).
Proof. induction l as [|p l IH]; [reflexivity|]; cbn [map existsb]; rewrite IH; reflexivity. Qed.

Lemma existsb_twice (s : Scene) (ps : list Sector.Planet) :
  existsb (fun xy => (Distance_Between (Player.x (player s)) (Player.y (player s))
                                       (fst xy) (snd xy) <? 150)%float)
          (flat_map (fun p => [planet_at p; planet_at p]) ps)
  = existsb (near s) ps.
Proof.
  induction ps as [|p ps IH]; [reflexivity|]; cbn [flat_map app existsb].
  rewrite IH; unfold near, planet_at; cbn [fst snd].
  destruct (_ <? 150)%float; reflexivity.
Qed.

Lemma scan_counts (s : Scene) :
  Player.discoveries (player (scan s))
  = Player.discoveries (player s) + (if existsb (in_range s) (planets s) then 1 else 0).
Proof.
  destruct (existsb (in_range s) (planets s)) eqn:E.
  - exact (proj1 (scan_cadence s E)).
  - unfold scan; cbv zeta.
    change (existsb _ _) with (existsb (in_range s) (planets s)); rewrite E.
    scene_cbn; lia.
Qed.

(** X9.  In a session a scan counts a discovery exactly when some planet
    of the active sector is at a distance strictly below 150 from the
    player: the sprites the scan looks at are those of the sector. *)
Theorem session_scan_finds_sector_planets w h g now r m steps :
  let s := session w h g now r m steps in
  existsb (in_range s) (planets s) = existsb (near s) (Sector.planets (sector s)) /\
  Player.discoveries (player (scan s))
  = Player.discoveries (player s)
    + (if existsb (near s) (Sector.planets (sector s)) then 1 else 0).
Proof.
  intros s; pose proof (good_planets s (good_session w h g now r m steps)) as Hp.
  assert (E : existsb (in_range s) (planets s)
              = existsb (near s) (Sector.planets (sector s)))
    by (rewrite existsb_in_range, Hp; apply existsb_twice).
  split; [exact E|]; rewrite <- E; apply scan_counts.
Qed.

(** X10.  Throughout a session the shield flag is set exactly when a
    delayed call is pending, and at most one is ever pending: no
    interleaving of shield requests, ticks, collisions and clock updates
    stacks two windows or leaves the flag set with nothing to clear it. *)
Theorem session_shield_has_one_timer w h g now r m steps :
  let s := session w h g now r m steps in
  (Player.shield (player s) = true <-> exists t, delayed s = [t]) /\
  (Player.shield (player s) = false <-> delayed s = []) /\
  (List.length (delayed s) <= 1)%nat.
Proof.
  intros s.
  destruct (steady_shield s (good_steady s (good_session w h g now r m steps)))
    as [[Hs Hd]|[Hs [t Hd]]]; fold s in Hs, Hd; rewrite Hs, Hd.
  - repeat split; auto; try discriminate; intros [t Ht]; discriminate Ht.
  - repeat split; auto; try discriminate; eauto.
Qed.

(** X11.  Throughout a session every live enemy has between 1 and 4 hp and
    one of the three types, no two enemies share an identity and no two
    bullets do, and every bullet of the group is active. *)
Theorem session_enemies_alive_and_distinct w h g now r m steps :
  let s := session w h g now r m steps in
  Forall (fun e => 1 <= e_hp e <= 4 /\
                   (e_type e = "scout" \/ e_type e = "tank" \/ e_type e = "pulsar"))
         (enemies s) /\
  NoDup (map e_id (enemies s)) /\
  NoDup (map b_id (children (bullets s))) /\
  forallb b_active (children (bullets s)) = true.
Proof.
  intros s.
  destruct (good_steady s (good_session w h g now r m steps))
    as [_ Hen [Ha _] _ [Hb _] [He _]].
  repeat split; assumption.
Qed.

(** X12.  Steps never lower the discoveries and never raise the hull,
    from any scene; in a session the discoveries are at least 0 and the
    hull at most 3. *)
Theorem counters_are_monotone (steps : list Step) (s0 : Scene) w h g now r m :
  Player.discoveries (player s0) <= Player.discoveries (player (run steps s0)) /\
  Player.hull (player (run steps s0)) <= Player.hull (player s0) /\
  0 <= Player.discoveries (player (session w h g now r m steps)) /\
  Player.hull (player (session w h g now r m steps)) <= 3.
Proof.
  destruct (evolves_run steps s0) as (_ & D & H & _).
  destruct (steady_counters _ (good_steady _ (good_session w h g now r m steps))) as [C1 C2].
  auto.
Qed.

(** X13.  In a session the bullet group always has room and no inactive
    member, so a fire request is never dropped and never recycles: it
    adds one bullet, 20 above the player, moving up at 300. *)
Theorem session_fire_always_adds w h g now r m steps :
  let s := session w h g now r m steps in
  children (bullets (fire s))
  = children (bullets s)
    ++ [mkBullet (nextId s) (Player.x (player s)) (Player.y (player s) - 20)
                 0 (-300) true true] /\
  ~ In (nextId s) (map b_id (children (bullets s))).
Proof.
  intros s.
  destruct (good_steady s (good_session w h g now r m steps))
    as [_ _ [Ha Hm] _ [_ Hb] _].
  assert (Hf : isFull (bullets s) = false) by (unfold isFull; rewrite Hm; reflexivity).
  rewrite (fire_created s Ha Hf); split; [reflexivity|].
  intros Hin; apply in_map_iff in Hin; destruct Hin as (b & Hb' & Hin).
  rewrite Forall_forall in Hb; specialize (Hb b Hin); lia.
Qed.

Lemma no_title (l : list Effect) :
  forallb peaceful l = true ->
  filter (fun e => match e with
                   | Scene_start key => String.eqb key "Title"
                   | _ => false
                   end) l = [].
Proof.
  induction l as [|e l IH]; [reflexivity|]; intros P.
  cbn [forallb] in P; apply andb_prop in P; destruct P as [Pe Pl].
  destruct e; try discriminate Pe; simpl; exact (IH Pl).
Qed.

Lemma hud_replay_app (a b : list Effect) (u : Hud) :
  hud_replay (a ++ b) u = hud_replay b (hud_replay a u).
Proof. apply fold_left_app. Qed.

(** ** What a tick leaves alone *)

Lemma calm_refl (s : Scene) : calm s s.
Proof.
  repeat (split; [reflexivity|]); split; [|left; split; reflexivity].
  exists []; split; [now rewrite app_nil_r|reflexivity].
Qed.

Lemma calm_trans (s1 s2 s3 : Scene) : calm s1 s2 -> calm s2 s3 -> calm s1 s3.
Proof.
  intros (X1 & Y1 & H1 & E1 & (l1 & L1 & P1) & S1) (X2 & Y2 & H2 & E2 & (l2 & L2 & P2) & S2).
  split; [congruence|]; split; [congruence|]; split; [congruence|]; split; [congruence|].
  split.
  - exists (l1 ++ l2); split; [rewrite L2, L1, app_assoc; reflexivity|].
    rewrite forallb_app, P1, P2; reflexivity.
  - destruct S1 as [[A1 B1]|(A1 & B1 & C1)], S2 as [[A2 B2]|(A2 & B2 & C2)].
    + left; split; congruence.
    + right; split; [congruence|]; split; [exact B2|].
      rewrite C2, B1, X1, Y1; reflexivity.
    + right; split; [exact A1|]; split; [congruence|]; congruence.
    + congruence.
Qed.

Lemma calm_quietly (s s' : Scene) (l : list Effect) :
  player s' = player s -> enemies s' = enemies s -> delayed s' = delayed s ->
  effects s' = effects s ++ l -> forallb peaceful l = true -> calm s s'.
Proof.
  intros Hp He Hd Hl Hq; unfold calm; rewrite Hp, He, Hd.
  repeat (split; [reflexivity|]); split; [eauto|left; split; reflexivity].
Qed.

Lemma calm_when (b : bool) (f : Scene -> Scene) (s : Scene) :
  (forall s, calm s (f s)) -> calm s (if b then f s else s).
Proof. intros H; destruct b; [apply H|apply calm_refl]. Qed.

Lemma calm_fire (s : Scene) : calm s (fire s).
Proof.
  unfold fire; cbv zeta.
  destruct (Group_get _ _ _ _) as [[[[before b] after] [|]]|]; [| |apply calm_refl].
  - apply (calm_quietly _ _ [AddBullet (b_id b); AudioPing]); try reflexivity.
    scene_cbn; rewrite <- app_assoc; reflexivity.
  - apply (calm_quietly _ _ [AudioPing]); reflexivity.
Qed.

Lemma calm_emit (e : Effect) (s : Scene) : peaceful e = true -> calm s (emit e s).
Proof.
  intros P; apply (calm_quietly _ _ [e]); try reflexivity.
  cbn [forallb]; rewrite P; reflexivity.
Qed.

Lemma calm_loadSector (sd : Z) (s : Scene) : calm s (loadSector sd s).
Proof.
  destruct (loadSector_fields sd s) as (_ & _ & _ & Hp & _ & He & _ & Hd & _ & Hf & _).
  apply (calm_quietly _ _ []); try assumption; [|reflexivity].
  rewrite app_nil_r; exact Hf.
Qed.

Lemma calm_jumpSector (s : Scene) : calm s (jumpSector s).
Proof.
  rewrite jumpSector_is.
  apply (calm_trans _ (loadSector (next_seed (seed s)) (set_seed (next_seed (seed s)) s)));
    [|apply calm_emit; reflexivity].
  apply (calm_trans _ (set_seed (next_seed (seed s)) s)); [|apply calm_loadSector].
  apply (calm_quietly _ _ []); try reflexivity.
  scene_cbn; now rewrite app_nil_r.
Qed.

Lemma calm_scan (s : Scene) : calm s (scan s).
Proof.
  unfold scan; cbv zeta.
  set (s1 := emit Tween_scanRing (set_scanRing _ s)).
  assert (H1 : calm s s1) by (apply (calm_quietly _ _ [Tween_scanRing]); reflexivity).
  destruct (existsb _ _); [|exact H1].
  eapply calm_trans; [exact H1|].
  set (s2 := emit _ (set_player _ s1)).
  assert (H2 : calm s1 s2).
  { subst s2; unfold calm; scene_cbn.
    repeat (split; [reflexivity|]); split; [|left; split; reflexivity].
    eexists; split; reflexivity. }
  destruct (_ =? 0); [|exact H2].
  eapply calm_trans; [exact H2|apply calm_jumpSector].
Qed.

Lemma calm_shield (s : Scene) : calm s (shield s).
Proof.
  unfold shield; destruct (Player.shield (player s)) eqn:E; [apply calm_refl|].
  unfold calm; scene_cbn; rewrite E.
  repeat (split; [reflexivity|]); split; [|right; repeat split].
  exists []; split; [now rewrite app_nil_r|reflexivity].
Qed.

Lemma calm_togglePhoto (s : Scene) : calm s (togglePhoto s).
Proof. apply (calm_quietly _ _ [Emit_photo (negb (photo s))]); reflexivity. Qed.

Lemma calm_pause (s : Scene) : calm s (emit Scene_pause s).
Proof. apply (calm_quietly _ _ [Scene_pause]); reflexivity. Qed.

Lemma calm_movement (inp : Input) (s : Scene) : calm s (movement inp s).
Proof.
  unfold movement, calm; scene_cbn.
  repeat (split; [reflexivity|]); split; [|left; split; reflexivity].
  exists []; split; [now rewrite app_nil_r|reflexivity].
Qed.

Lemma calm_destroy_bullet (b : nat) (s : Scene) : calm s (destroy_bullet b s).
Proof.
  unfold destroy_bullet; destruct (existsb _ _); [|apply calm_refl].
  apply (calm_quietly _ _ [DestroyBullet b]); reflexivity.
Qed.

Lemma calm_iterate_cleanup (n : nat) :
  forall i s, calm s (state_of (iterate_cleanup n i s)).
Proof.
  induction n as [|n IH]; intros i s; cbn [iterate_cleanup]; [apply calm_refl|].
  destruct (nth_error _ i) as [b|]; [|apply calm_refl].
  destruct (off b); [|apply IH].
  eapply calm_trans; [apply calm_destroy_bullet|apply IH].
Qed.

Lemma calm_bullets_cleanup (s : Scene) : calm s (state_of (bullets_cleanup s)).
Proof. apply calm_iterate_cleanup. Qed.

Lemma calm_pad_actions (inp : Input) (s : Scene) : calm s (state_of (pad_actions inp s)).
Proof.
  unfold pad_actions; destruct (pad inp) as [pd|]; [|apply calm_refl]; cbn [state_of].
  apply (calm_when _ fire), calm_fire.
Qed.

Lemma calm_keyboard_actions (inp : Input) (s : Scene) : calm s (keyboard_actions inp s).
Proof.
  unfold keyboard_actions; cbv zeta.
  eapply calm_trans; [|apply (calm_when _ (emit Scene_pause)), calm_pause].
  eapply calm_trans; [|apply (calm_when _ togglePhoto), calm_togglePhoto].
  eapply calm_trans; [|apply (calm_when _ shield), calm_shield].
  eapply calm_trans; [|apply (calm_when _ scan), calm_scan].
  apply (calm_when _ fire), calm_fire.
Qed.

Lemma game_overs_app (s s' : Scene) (l : list Effect) :
  effects s' = effects s ++ l -> forallb peaceful l = true -> game_overs s' = game_overs s.
Proof.
  intros E P; unfold game_overs; rewrite E, filter_app, length_app.
  rewrite (no_title l P); cbn; lia.
Qed.

Lemma director_update_peaceful (delta : num) (s : Scene) :
  exists l, effects (director_update delta s) = effects s ++ l /\ forallb peaceful l = true.
Proof.
  destruct (director_update_effects delta s) as [E|E]; rewrite E.
  - exists []; split; [now rewrite app_nil_r|reflexivity].
  - eexists; split; reflexivity.
Qed.

Lemma fire_frame (s : Scene) :
  player (fire s) = player s /\ timer (fire s) = timer s /\
  enemies (fire s) = enemies s /\ delayed (fire s) = delayed s.
Proof.
  unfold fire; destruct (Group_get _ _ _ _) as [[[[before b] after] [|]]|]; repeat split.
Qed.

Lemma update_frame (inp : Input) (delta : num) (s : Scene) :
  let o := update inp delta s in
  let s' := state_of o in
  Player.hull (player s') = Player.hull (player s) /\
  game_overs s' = game_overs s /\
  (Player.x (player s'), Player.y (player s'))
  = (Player.x (player s), Player.y (player s)) /\
  ((Player.shield (player s') = Player.shield (player s) /\ delayed s' = delayed s) \/
   (Player.shield (player s) = false /\ Player.shield (player s') = true /\
    delayed s' = delayed s
                 ++ [mkTimerEvent 0 300 (Player.x (player s), Player.y (player s))])) /\
  (exists l, enemies s' = enemies s ++ l /\
             (l = [] \/ threw o = false /\ List.length l = 3%nat)).
Proof.
  assert (K : forall x, calm s x ->
    Player.hull (player x) = Player.hull (player s) /\
    game_overs x = game_overs s /\
    (Player.x (player x), Player.y (player x)) = (Player.x (player s), Player.y (player s)) /\
    ((Player.shield (player x) = Player.shield (player s) /\ delayed x = delayed s) \/
     (Player.shield (player s) = false /\ Player.shield (player x) = true /\
      delayed x = delayed s
                  ++ [mkTimerEvent 0 300 (Player.x (player s), Player.y (player s))])) /\
    enemies x = enemies s).
  { intros x (X & Y & H & E & (l & L & P) & S).
    rewrite X, Y, H, E; repeat split; [|exact S].
    apply (game_overs_app _ _ l); assumption. }
  intros o s'; subst s' o; unfold update.
  pose proof (calm_pad_actions inp s) as H1.
  destruct (pad_actions inp s) as [s1|s1]; cbn [and_then state_of threw] in *.
  - set (s2 := keyboard_actions inp (movement inp s1)).
    assert (H2 : calm s s2).
    { eapply calm_trans; [exact H1|].
      eapply calm_trans; [apply calm_movement|apply calm_keyboard_actions]. }
    pose proof (calm_bullets_cleanup s2) as H3.
    destruct (bullets_cleanup s2) as [s3|s3]; cbn [and_then state_of threw] in *.
    + pose proof (calm_trans _ _ _ H2 H3) as (X & Y & H & E & (l & L & P) & S).
      destruct (director_update_player delta s3) as [Dp Dd].
      destruct (director_update_peaceful delta s3) as (l' & L' & P').
      rewrite Dp, Dd, X, Y, H.
      split; [reflexivity|]; split; [|split; [reflexivity|split; [exact S|]]].
      * apply (game_overs_app _ _ (l ++ l')); [rewrite L', L, app_assoc; reflexivity|].
        rewrite forallb_app, P, P'; reflexivity.
      * rewrite <- E.
        destruct (period s3 <? timer s3 + delta)%float eqn:C.
        -- rewrite (director_update_spawns _ _ C), spawn_enemies.
           eexists; split; [reflexivity|right; split; [reflexivity|apply batch_length]].
        -- rewrite (director_update_waits _ _ C).
           exists []; split; [scene_cbn; now rewrite app_nil_r|left; reflexivity].
    + destruct (K s3 (calm_trans _ _ _ H2 H3)) as (A & B & C & D & E).
      repeat (split; [assumption|]).
      exists []; rewrite app_nil_r; auto.
  - destruct (K s1 H1) as (A & B & C & D & E).
    repeat (split; [assumption|]).
    exists []; rewrite app_nil_r; auto.
Qed.

(** X15.  A tick of [update] never costs hull and never ends the game,
    whatever the input and whether it returns or throws; it leaves the
    player where it is; it starts at most one shield window, of 300 ms
    around the player, and never lowers the shield; and it adds either no
    enemy or, when it returns, a batch of three.  With a pad connected
    the tick throws: the velocity, the shield, the discoveries and the
    director's timer are as before, whatever the pad's axes and buttons
    and whatever keys are down.  A tick that returns has set the velocity
    the keys ask for. *)
Theorem update_is_harmless (inp : Input) (delta : num) (s : Scene) :
  let o := update inp delta s in
  let s' := state_of o in
  Player.hull (player s') = Player.hull (player s) /\
  game_overs s' = game_overs s /\
  (Player.x (player s'), Player.y (player s'))
  = (Player.x (player s), Player.y (player s)) /\
  ((Player.shield (player s') = Player.shield (player s) /\ delayed s' = delayed s) \/
   (Player.shield (player s) = false /\ Player.shield (player s') = true /\
    delayed s' = delayed s
                 ++ [mkTimerEvent 0 300 (Player.x (player s), Player.y (player s))])) /\
  (exists l, enemies s' = enemies s ++ l /\
             (l = [] \/ threw o = false /\ List.length l = 3%nat)) /\
  (pad inp <> None ->
   threw o = true /\ player s' = player s /\ delayed s' = delayed s /\
   timer s' = timer s /\ enemies s' = enemies s) /\
  (threw o = false ->
   pad inp = None /\
   (Player.vx (player s'), Player.vy (player s')) = keyboard_velocity inp).
Proof.
  intros o s'.
  destruct (update_frame inp delta s) as (A & B & C & D & E); fold o in A, B, C, D, E;
    fold s' in A, B, C, D, E.
  repeat (split; [assumption|]); split.
  - intros Hp; subst s' o; unfold update, pad_actions.
    destruct (pad inp) as [pd|]; [|congruence]; cbn [and_then state_of threw].
    destruct (fire_frame s) as (F1 & F2 & F3 & F4).
    destruct (button0 pd); repeat split; assumption.
  - intros T; subst s' o; unfold update, pad_actions in *.
    destruct (pad inp) as [pd|] eqn:Ep; [discriminate T|]; cbn [and_then] in *.
    split; [reflexivity|].
    set (s2 := keyboard_actions inp (movement inp s)) in *.
    pose proof (iterate_cleanup_frame (List.length (children (bullets s2))) 0 s2) as Fr.
    fold (bullets_cleanup s2) in Fr.
    destruct (bullets_cleanup s2) as [s3|s3]; [|discriminate T]; cbn [and_then state_of] in *.
    rewrite (proj1 (director_update_player delta s3)).
    destruct Fr as (-> & _); unfold s2.
    destruct (keeps_course_keyboard_actions inp (movement inp s)) as (_ & _ & -> & ->).
    unfold movement; rewrite Ep; cbv zeta.
    cbn [player set_player with_velocity Player.vx Player.vy].
    symmetry; apply surjective_pairing.
Qed.

(** ** The collision callbacks *)

Lemma fading_refl (s : Scene) : fading s s.
Proof. repeat split; auto. Qed.

Lemma fading_trans (s1 s2 s3 : Scene) : fading s1 s2 -> fading s2 s3 -> fading s1 s3.
Proof.
  intros (A1 & B1 & C1 & D1) (A2 & B2 & C2 & D2).
  split; [auto|]; split; [auto|]; split; congruence.
Qed.

Lemma fading_same (s s' : Scene) :
  enemies s' = enemies s -> bullets s' = bullets s -> seed s' = seed s ->
  sector s' = sector s -> fading s s'.
Proof.
  intros He Hb Hs Hc; unfold fading, enemy_alive, bullet_alive; rewrite He, Hb.
  repeat split; auto.
Qed.

Lemma existsb_filter_sub {A} (q p : A -> bool) (l : list A) :
  existsb q (filter p l) = true -> existsb q l = true.
Proof.
  rewrite !existsb_exists; intros (x & Hin & Hq).
  apply filter_In in Hin; exists x; tauto.
Qed.

Lemma existsb_filter_out {A} (q : A -> bool) (l : list A) :
  existsb q (filter (fun x => negb (q x)) l) = false.
Proof.
  induction l as [|x l IH]; [reflexivity|].
  cbn [filter]; destruct (q x) eqn:E; cbn [negb]; [exact IH|].
  cbn [existsb]; rewrite E; exact IH.
Qed.

Lemma fading_destroy_bullet (b : nat) (s : Scene) : fading s (destroy_bullet b s).
Proof.
  unfold destroy_bullet; destruct (existsb _ _); [|apply fading_refl].
  unfold fading, enemy_alive, bullet_alive; scene_cbn.
  split; [auto|]; split; [|split; reflexivity].
  intros x; apply existsb_filter_sub.
Qed.

Lemma fading_destroy_enemy (e : nat) (s : Scene) : fading s (destroy_enemy e s).
Proof.
  unfold destroy_enemy; destruct (existsb _ _); [|apply fading_refl].
  unfold fading, enemy_alive, bullet_alive; scene_cbn.
  split; [|split; [auto|split; reflexivity]].
  intros x; apply existsb_filter_sub.
Qed.

Lemma bullet_not_alive_after_destroy (b : nat) (s : Scene) :
  bullet_alive b (destroy_bullet b s) = false.
Proof.
  unfold destroy_bullet, bullet_alive.
  destruct (existsb _ (children (bullets s))) eqn:E; [|exact E].
  scene_cbn; apply (existsb_filter_out (fun x => Nat.eqb (b_id x) b)).
Qed.

Lemma existsb_id_set_hp (x e : nat) (hp : Z) (l : list Enemy) :
  existsb (fun en => Nat.eqb (e_id en) x) (map (set_hp e hp) l)
  = existsb (fun en => Nat.eqb (e_id en) x) l.
Proof.
  induction l as [|a l IH]; [reflexivity|].
  cbn [map existsb]; rewrite set_hp_id, IH; reflexivity.
Qed.

(** What a hit does once the bullet is gone, on the enemy found. *)
Lemma hitEnemy_found (b e : nat) (s : Scene) (en : Enemy) :
  find_enemy e s = Some en ->
  let s1 := destroy_bullet b s in
  let d := Player.discoveries (player s) in
  bullets (hitEnemy b e s) = bullets s1 /\
  seed (hitEnemy b e s) = seed s /\ sector (hitEnemy b e s) = sector s /\
  (if e_hp en - 1 <=? 0
   then enemies (hitEnemy b e s)
        = filter (fun x => negb (Nat.eqb (e_id x) e)) (enemies s) /\
        player (hitEnemy b e s) = with_discoveries (d + 1) (player s) /\
        effects (hitEnemy b e s)
        = effects s1 ++ [DestroyEnemy e; Emit_updateHud (Some (d + 1)) None None]
   else enemies (hitEnemy b e s) = map (set_hp e (e_hp en - 1)) (enemies s) /\
        player (hitEnemy b e s) = player s /\
        effects (hitEnemy b e s) = effects s1).
Proof.
  intros Hf s1 d; subst d.
  destruct (hitEnemy_keeps_sector b e s) as [Hs Hc].
  split; [|split; [exact Hs|split; [exact Hc|]]]; clear Hs Hc;
    unfold hitEnemy; fold s1;
    destruct (destroy_bullet_frame b s) as (_ & _ & Hp & He); fold s1 in Hp, He;
    unfold find_enemy in *; rewrite He, Hf; cbv zeta.
  - destruct (_ <=? 0); [|reflexivity].
    scene_cbn; unfold destroy_enemy; destruct (existsb _ _); reflexivity.
  - destruct (find_enemy_hp _ _ _ Hf) as [Hin Hid].
    destruct (_ <=? 0); [|scene_cbn; rewrite Hp; auto].
    unfold destroy_enemy; scene_cbn.
    rewrite existsb_after_set_hp, filter_after_set_hp.
    assert (Hex : existsb (fun e0 => Nat.eqb (e_id e0) e) (enemies s) = true).
    { apply existsb_exists; exists en; split; [exact Hin|now apply Nat.eqb_eq]. }
    rewrite Hex; scene_cbn; rewrite Hp, <- app_assoc; auto.
Qed.

Lemma hitEnemy_missing (b e : nat) (s : Scene) :
  find_enemy e s = None -> hitEnemy b e s = destroy_bullet b s.
Proof.
  intros Hf; unfold hitEnemy.
  destruct (destroy_bullet_frame b s) as (_ & _ & _ & He).
  unfold find_enemy in *; rewrite He, Hf; reflexivity.
Qed.

Lemma fading_hitEnemy (b e : nat) (s : Scene) : fading s (hitEnemy b e s).
Proof.
  destruct (find_enemy e s) as [en|] eqn:Ef;
    [|rewrite (hitEnemy_missing _ _ _ Ef); apply fading_destroy_bullet].
  destruct (hitEnemy_found b e s en Ef) as (Hb & Hs & Hc & H).
  destruct (fading_destroy_bullet b s) as (_ & B & _ & _).
  unfold fading, enemy_alive, bullet_alive in *; rewrite Hb.
  split; [|split; [exact B|split; assumption]].
  intros x; destruct (_ <=? 0); destruct H as (-> & _ & _).
  - apply existsb_filter_sub.
  - rewrite existsb_id_set_hp; auto.
Qed.

Lemma playerHit_frame (e : nat) (s : Scene) :
  bullets (playerHit e s) = bullets s /\ seed (playerHit e s) = seed s /\
  sector (playerHit e s) = sector s /\
  Player.discoveries (player (playerHit e s)) = Player.discoveries (player s).
Proof.
  unfold playerHit; cbv zeta.
  assert (H : bullets (destroy_enemy e s) = bullets s /\ seed (destroy_enemy e s) = seed s /\
              sector (destroy_enemy e s) = sector s /\ player (destroy_enemy e s) = player s)
    by (unfold destroy_enemy; destruct (existsb _ _); repeat split).
  destruct H as (Hb & Hs & Hc & Hp).
  destruct (Player.shield _).
  - change (bullets (destroy_enemy e s) = bullets s /\ seed (destroy_enemy e s) = seed s /\
            sector (destroy_enemy e s) = sector s /\
            Player.discoveries (player (destroy_enemy e s)) = Player.discoveries (player s)).
    rewrite Hp; auto.
  - destruct (_ <=? 0); unfold gameOver; scene_cbn; rewrite ?Hb, ?Hs, ?Hc, ?Hp; auto.
Qed.

Lemma fading_playerHit (e : nat) (s : Scene) : fading s (playerHit e s).
Proof.
  destruct (playerHit_frame e s) as (Hb & Hs & Hc & _).
  destruct (fading_destroy_enemy e s) as (A & _ & _ & _).
  unfold fading, enemy_alive, bullet_alive in *; rewrite Hb, playerHit_enemies.
  split; [exact A|]; split; [auto|]; split; assumption.
Qed.

Lemma toll_refl (s : Scene) : toll 0 0 s s.
Proof. unfold toll; lia. Qed.

Lemma toll_trans (h1 d1 h2 d2 : Z) (s1 s2 s3 : Scene) :
  toll h1 d1 s1 s2 -> toll h2 d2 s2 s3 -> toll (h1 + h2) (d1 + d2) s1 s3.
Proof. unfold toll; lia. Qed.

Lemma toll_weaken (h d h' d' : Z) (s s' : Scene) :
  h <= h' -> d <= d' -> toll h d s s' -> toll h' d' s s'.
Proof. unfold toll; lia. Qed.

Lemma toll_playerHit (e : nat) (s : Scene) : toll 1 0 s (playerHit e s).
Proof.
  destruct (playerHit_frame e s) as (_ & _ & _ & Hd); unfold toll; rewrite Hd.
  split; [|lia].
  destruct (Player.shield (player s)) eqn:E.
  - rewrite (playerHit_shielded _ _ E), destroy_enemy_player; lia.
  - rewrite (playerHit_unshielded_hull _ _ E); lia.
Qed.

Lemma toll_hitEnemy (b e : nat) (s : Scene) : toll 0 1 s (hitEnemy b e s).
Proof.
  unfold toll.
  destruct (find_enemy e s) as [en|] eqn:Ef.
  - destruct (hitEnemy_found b e s en Ef) as (_ & _ & _ & H).
    destruct (_ <=? 0); destruct H as (_ & -> & _); scene_cbn; lia.
  - rewrite (hitEnemy_missing _ _ _ Ef).
    destruct (destroy_bullet_frame b s) as (_ & _ & -> & _); lia.
Qed.

Lemma collide_is (hits : list (nat * nat)) (touching : list nat) (s : Scene) :
  collide hits touching s = fold_left on_touch touching (fold_left on_hit hits s).
Proof. reflexivity. Qed.

Lemma fading_on_hit (s : Scene) (be : nat * nat) : fading s (on_hit s be).
Proof. unfold on_hit; destruct (_ && _); [apply fading_hitEnemy|apply fading_refl]. Qed.

Lemma fading_on_touch (s : Scene) (e : nat) : fading s (on_touch s e).
Proof. unfold on_touch; destruct (enemy_alive _ _); [apply fading_playerHit|apply fading_refl]. Qed.

Lemma fading_fold {A} (f : Scene -> A -> Scene) (l : list A) :
  (forall s a, fading s (f s a)) -> forall s, fading s (fold_left f l s).
Proof.
  intros H; induction l as [|a l IH]; intros s; [apply fading_refl|].
  cbn [fold_left]; eapply fading_trans; [apply H|apply IH].
Qed.

Lemma toll_fold_touch (l : list nat) :
  forall s, toll (Z.of_nat (List.length l)) 0 s (fold_left on_touch l s).
Proof.
  induction l as [|a l IH]; intros s; [apply toll_refl|].
  cbn [fold_left]; specialize (IH (on_touch s a)).
  assert (H : toll 1 0 s (on_touch s a)).
  { unfold on_touch; destruct (enemy_alive _ _); [apply toll_playerHit|].
    unfold toll; lia. }
  revert H IH; unfold toll; cbn [List.length]; lia.
Qed.

Lemma toll_fold_hit (l : list (nat * nat)) :
  forall s, toll 0 (Z.of_nat (List.length l)) s (fold_left on_hit l s).
Proof.
  induction l as [|a l IH]; intros s; [apply toll_refl|].
  cbn [fold_left]; specialize (IH (on_hit s a)).
  assert (H : toll 0 1 s (on_hit s a)).
  { unfold on_hit; destruct (_ && _); [apply toll_hitEnemy|].
    unfold toll; lia. }
  revert H IH; unfold toll; cbn [List.length]; lia.
Qed.

(** A property that each callback establishes for its own argument, and
    that survives while nothing comes back, holds of every argument after
    the whole pass. *)
Lemma fold_settles {A} (f : Scene -> A -> Scene) (D : A -> Scene -> Prop) (l : list A) :
  (forall s a, D a (f s a)) ->
  (forall s s' a, fading s s' -> D a s -> D a s') ->
  (forall s a, fading s (f s a)) ->
  forall s a, In a l -> D a (fold_left f l s).
Proof.
  intros Hd Hk Hf; induction l as [|x l IH]; intros s a Hin; [destruct Hin|].
  cbn [fold_left]; destruct Hin as [->|Hin]; [|now apply IH].
  apply (Hk (f s a)); [apply fading_fold, Hf|apply Hd].
Qed.

Lemma stays_false (a b : bool) : (b = true -> a = true) -> a = false -> b = false.
Proof. destruct b; [intros H E; rewrite H in E; auto|auto]. Qed.

(** X16.  After the collision callbacks of a step every enemy the player
    touched is gone, shield or not, and of every bullet-enemy pair
    reported the bullet or the enemy is gone; no enemy or bullet comes
    back; the seed and the sector are untouched, so no kill ever jumps;
    the hull drops by at most the number of enemies touched, and the
    discoveries grow by at most the number of pairs. *)
Theorem collide_outcome (hits : list (nat * nat)) (touching : list nat) (s : Scene) :
  let s' := collide hits touching s in
  (forall e, In e touching -> enemy_alive e s' = false) /\
  (forall b e, In (b, e) hits -> bullet_alive b s' = false \/ enemy_alive e s' = false) /\
  (forall e, enemy_alive e s' = true -> enemy_alive e s = true) /\
  (forall b, bullet_alive b s' = true -> bullet_alive b s = true) /\
  seed s' = seed s /\ sector s' = sector s /\
  Player.hull (player s) - Z.of_nat (List.length touching) <= Player.hull (player s') /\
  Player.discoveries (player s') <= Player.discoveries (player s) + Z.of_nat (List.length hits).
Proof.
  intros s'; subst s'; rewrite collide_is.
  set (s1 := fold_left on_hit hits s).
  assert (F1 : fading s s1) by apply fading_fold, fading_on_hit.
  assert (F2 : fading s1 (fold_left on_touch touching s1))
    by apply fading_fold, fading_on_touch.
  destruct (fading_trans _ _ _ F1 F2) as (A & B & C & D).
  split; [|split; [|split; [exact A|split; [exact B|split; [exact C|split; [exact D|]]]]]].
  - intros e He.
    apply (fold_settles on_touch (fun e s => enemy_alive e s = false)); try exact He.
    + intros s0 a; unfold on_touch; destruct (enemy_alive a s0) eqn:E;
        [apply playerHit_destroys|exact E].
    + intros s0 s0' a (A0 & _) Hdead; revert Hdead; apply stays_false, A0.
    + apply fading_on_touch.
  - intros b e Hin.
    assert (H1 : bullet_alive b s1 = false \/ enemy_alive e s1 = false).
    { apply (fold_settles on_hit
               (fun be s => bullet_alive (fst be) s = false \/ enemy_alive (snd be) s = false)
               hits) with (a := (b, e)); try exact Hin.
      - intros s0 [b0 e0]; unfold on_hit; cbn [fst snd].
        destruct (bullet_alive b0 s0) eqn:Eb; [|left; exact Eb].
        destruct (enemy_alive e0 s0) eqn:Ee; [|right; exact Ee].
        cbn [andb]; left.
        destruct (find_enemy e0 s0) as [en|] eqn:Ef.
        + destruct (hitEnemy_found b0 e0 s0 en Ef) as (Hb & _).
          unfold bullet_alive; rewrite Hb; apply bullet_not_alive_after_destroy.
        + rewrite (hitEnemy_missing _ _ _ Ef); apply bullet_not_alive_after_destroy.
      - intros s0 s0' [b0 e0] (A0 & B0 & _); cbn [fst snd]; intros [Hd|Hd].
        + left; revert Hd; apply stays_false, B0.
        + right; revert Hd; apply stays_false, A0.
      - apply fading_on_hit. }
    destruct F2 as (A2 & B2 & _); destruct H1 as [Hd|Hd].
    + left; revert Hd; apply stays_false, B2.
    + right; revert Hd; apply stays_false, A2.
  - pose proof (toll_fold_hit hits s) as T1; fold s1 in T1.
    pose proof (toll_fold_touch touching s1) as T2.
    revert T1 T2; unfold toll; lia.
Qed.

Lemma find_set_hp (e : nat) (hp : Z) (l : list Enemy) :
  find (fun x => Nat.eqb (e_id x) e) (map (set_hp e hp) l)
  = option_map (set_hp e hp) (find (fun x => Nat.eqb (e_id x) e) l).
Proof.
  induction l as [|a l IH]; [reflexivity|].
  cbn [map find]; rewrite set_hp_id.
  destruct (Nat.eqb (e_id a) e); [reflexivity|exact IH].
Qed.

Lemma filter_none_with_id (e : nat) (l : list Enemy) :
  ~ In e (map e_id l) -> filter (fun x => negb (Nat.eqb (e_id x) e)) l = l.
Proof.
  induction l as [|a l IH]; [reflexivity|]; cbn [map In filter]; intros H.
  destruct (Nat.eqb (e_id a) e) eqn:E.
  - apply Nat.eqb_eq in E; tauto.
  - cbn [negb]; rewrite IH; tauto.
Qed.

Lemma filter_one_with_id (e : nat) (l : list Enemy) :
  NoDup (map e_id l) -> In e (map e_id l) ->
  S (List.length (filter (fun x => negb (Nat.eqb (e_id x) e)) l)) = List.length l.
Proof.
  induction l as [|a l IH]; cbn [map In filter List.length]; [tauto|].
  intros Hn Hin; inversion Hn as [|? ? Ha Hl]; subst.
  destruct (Nat.eqb (e_id a) e) eqn:E; cbn [negb].
  - apply Nat.eqb_eq in E; subst e; rewrite (filter_none_with_id _ _ Ha); reflexivity.
  - apply Nat.eqb_neq in E; cbn [List.length]; rewrite IH; tauto.
Qed.

(** X17.  A hit on an enemy of a scene whose enemies have distinct
    identities destroys the bullet and leaves every other enemy as it
    was.  With 2 hp or more the enemy stays, with one hp less, and the
    discoveries stand; with 1 hp or less the enemy is removed, the
    enemies are one fewer, and the discoveries grow by one. *)
Theorem hitEnemy_outcome (b e : nat) (s : Scene) (en : Enemy) :
  find_enemy e s = Some en -> NoDup (map e_id (enemies s)) ->
  let s' := hitEnemy b e s in
  bullet_alive b s' = false /\
  (forall x, In x (enemies s) -> e_id x <> e -> In x (enemies s')) /\
  (2 <= e_hp en ->
   find_enemy e s'
   = Some (mkEnemy e (e_x en) (e_y en) (e_vx en) (e_vy en) (e_type en) (e_hp en - 1)) /\
   List.length (enemies s') = List.length (enemies s) /\
   Player.discoveries (player s') = Player.discoveries (player s)) /\
  (e_hp en <= 1 ->
   enemy_alive e s' = false /\
   S (List.length (enemies s')) = List.length (enemies s) /\
   Player.discoveries (player s') = Player.discoveries (player s) + 1).
Proof.
  intros Hf Hn s'; subst s'.
  destruct (hitEnemy_found b e s en Hf) as (Hb & _ & _ & H).
  destruct (find_enemy_hp _ _ _ Hf) as [Hin Hid].
  split; [unfold bullet_alive; rewrite Hb; apply bullet_not_alive_after_destroy|].
  destruct (e_hp en - 1 <=? 0) eqn:Ehp; destruct H as (He & Hp & _);
    [apply Z.leb_le in Ehp|apply Z.leb_gt in Ehp];
    (split; [|split; [intros Hhp|intros Hhp]]); try lia.
  - intros x Hx Hne; rewrite He; apply filter_In; split; [exact Hx|].
    apply Nat.eqb_neq in Hne; rewrite Hne; reflexivity.
  - unfold enemy_alive; rewrite He, Hp; scene_cbn.
    split; [apply (existsb_filter_out (fun x => Nat.eqb (e_id x) e))|]; split; [|reflexivity].
    apply filter_one_with_id; [exact Hn|].
    apply in_map_iff; exists en; auto.
  - intros x Hx Hne; rewrite He; apply in_map_iff; exists x; split; [|exact Hx].
    unfold set_hp; apply Nat.eqb_neq in Hne; rewrite Hne; reflexivity.
  - unfold find_enemy in *; rewrite He, Hp, find_set_hp, Hf, length_map.
    cbn [option_map]; unfold set_hp; rewrite Hid, Nat.eqb_refl; auto.
Qed.

Lemma hitEnemy_outcome_witness :
  find_enemy 0 first_shot = Some (mkEnemy 0 360 (-50) 0 0 "scout" 2) /\
  NoDup (map e_id (enemies first_shot)) /\
  map e_id (enemies first_shot) = [0; 1; 2]%nat /\
  bullet_alive 3 first_shot = true /\
  bullet_alive 3 (hitEnemy 3 0 first_shot) = false /\
  (forall x, In x (enemies first_shot) -> e_id x <> 0%nat ->
             In x (enemies (hitEnemy 3 0 first_shot))) /\
  find_enemy 0 (hitEnemy 3 0 first_shot) = Some (mkEnemy 0 360 (-50) 0 0 "scout" 1) /\
  List.length (enemies (hitEnemy 3 0 first_shot)) = List.length (enemies first_shot).
Proof.
  assert (Hf : find_enemy 0 first_shot = Some (mkEnemy 0 360 (-50) 0 0 "scout" 2))
    by (vm_compute; reflexivity).
  assert (Hi : map e_id (enemies first_shot) = [0; 1; 2]%nat) by (vm_compute; reflexivity).
  assert (Hn : NoDup (map e_id (enemies first_shot))).
  { rewrite Hi; repeat constructor; cbn [In]; intuition discriminate. }
  assert (Hb : bullet_alive 3 first_shot = true) by (vm_compute; reflexivity).
  destruct (hitEnemy_outcome 3 0 first_shot _ Hf Hn) as (A & B & C & _).
  destruct C as (C1 & C2 & _); [cbn [e_hp]; lia|].
  split; [exact Hf|]; split; [exact Hn|]; split; [exact Hi|]; split; [exact Hb|].
  split; [exact A|]; split; [exact B|]; split; [exact C1|exact C2].
Defined.

(** ** The end of the game *)

Lemma vital_same (s s' : Scene) :
  Player.hull (player s') = Player.hull (player s) -> game_overs s' = game_overs s ->
  vital s -> vital s'.
Proof. unfold vital; intros -> ->; auto. Qed.

Lemma destroy_bullet_effects (b : nat) (s : Scene) :
  exists l, effects (destroy_bullet b s) = effects s ++ l /\ forallb peaceful l = true.
Proof.
  unfold destroy_bullet; destruct (existsb _ _).
  - exists [DestroyBullet b]; split; reflexivity.
  - exists []; split; [now rewrite app_nil_r|reflexivity].
Qed.

Lemma hitEnemy_vitals (b e : nat) (s : Scene) :
  Player.hull (player (hitEnemy b e s)) = Player.hull (player s) /\
  game_overs (hitEnemy b e s) = game_overs s.
Proof.
  destruct (destroy_bullet_effects b s) as (l & L & P).
  destruct (find_enemy e s) as [en|] eqn:Ef.
  - destruct (hitEnemy_found b e s en Ef) as (_ & _ & _ & H).
    destruct (_ <=? 0); destruct H as (_ & Hp & He); rewrite Hp; (split; [reflexivity|]).
    + apply (game_overs_app _ _ (l ++ [DestroyEnemy e;
                Emit_updateHud (Some (Player.discoveries (player s) + 1)) None None]));
        [rewrite He, L, app_assoc; reflexivity|].
      rewrite forallb_app, P; reflexivity.
    + apply (game_overs_app _ _ l); [rewrite He; exact L|exact P].
  - rewrite (hitEnemy_missing _ _ _ Ef).
    destruct (destroy_bullet_frame b s) as (_ & _ & -> & _); split; [reflexivity|].
    apply (game_overs_app _ _ l); assumption.
Qed.

Lemma vital_playerHit (e : nat) (s : Scene) : vital s -> vital (playerHit e s).
Proof.
  destruct (Player.shield (player s)) eqn:E.
  - rewrite (playerHit_shielded _ _ E); apply vital_same.
    + rewrite destroy_enemy_player; reflexivity.
    + apply destroy_enemy_game_overs.
  - unfold vital; rewrite (playerHit_unshielded_hull _ _ E),
      (playerHit_unshielded_game_over _ _ E).
    destruct (Player.hull (player s) - 1 <=? 0) eqn:Eh;
      [apply Z.leb_le in Eh|apply Z.leb_gt in Eh]; lia.
Qed.

Lemma vital_fold {A} (f : Scene -> A -> Scene) (l : list A) :
  (forall s a, vital s -> vital (f s a)) -> forall s, vital s -> vital (fold_left f l s).
Proof.
  intros H; induction l as [|a l IH]; intros s V; [exact V|].
  cbn [fold_left]; apply IH, H, V.
Qed.

Lemma vital_step (s : Scene) (st : Step) : vital s -> vital (step s st).
Proof.
  destruct st as [inp delta|hits touching|delta|pl bl en]; cbn [step].
  - destruct (update_frame inp delta s) as (H & G & _); apply vital_same; assumption.
  - rewrite collide_is; intros V; apply vital_fold; [|apply vital_fold; [|exact V]].
    + intros s0 a; unfold on_touch; destruct (enemy_alive _ _); [apply vital_playerHit|auto].
    + intros s0 a; unfold on_hit; destruct (_ && _); [|auto].
      destruct (hitEnemy_vitals (fst a) (snd a) s0) as [H G]; apply vital_same; assumption.
  - destruct (clock_update_frame delta s) as (E & _ & H & _).
    apply vital_same; [exact H|unfold game_overs; rewrite E; reflexivity].
  - destruct pl as [[[x y] vx] vy]; apply vital_same; reflexivity.
Qed.

Lemma vital_create (cfg : GameConfig) (w h : num) (g : GFX) (now : Z) (r : RND)
      (m : Ambient) :
  vital (state_of (create cfg w h g now r m)).
Proof.
  left; destruct (create_fields cfg w h g now r m) as (Hp & _).
  split; [rewrite Hp; cbn; lia|].
  destruct (effects_create cfg w h g now r m) as (l & [_ Q] & E).
  unfold game_overs; rewrite E, filter_app, (no_title l Q).
  destruct (input_gamepad cfg); reflexivity.
Qed.

(** X18.  Throughout a session, whichever ticks threw, the Title scene has
    been asked for exactly when the hull has reached 0: the game never
    ends with hull left, and the hull is never spent without the game
    ending. *)
Theorem session_game_over_iff_hull_spent w h g now r m steps :
  let s := session w h g now r m steps in
  (game_overs s = 0%nat <-> 1 <= Player.hull (player s)) /\
  ((1 <= game_overs s)%nat <-> Player.hull (player s) <= 0).
Proof.
  intros s; assert (V : vital s).
  { subst s; unfold session, run.
    apply vital_fold; [apply vital_step|apply vital_create]. }
  destruct V as [[H G]|[H G]]; lia.
Qed.

(** ** The cleanup of the bullets *)

Lemma forallb_false_at {A} (p : A -> bool) (l : list A) :
  forallb p l = false -> exists i a, nth_error l i = Some a /\ p a = false.
Proof.
  induction l as [|a l IH]; [discriminate|]; cbn [forallb]; intros H.
  destruct (p a) eqn:E; [|exists O, a; auto].
  destruct (IH H) as (i & b & Hi & Hb); exists (S i), b; auto.
Qed.

Lemma iterate_cleanup_sub (n : nat) :
  forall i s b, In b (children (bullets (state_of (iterate_cleanup n i s)))) ->
                In b (children (bullets s)).
Proof.
  induction n as [|n IH]; intros i s b; cbn [iterate_cleanup]; [auto|].
  destruct (nth_error _ i) as [c|]; [|auto].
  destruct (off c); [|apply IH].
  intros H; apply IH in H; rewrite destroy_bullet_children in H.
  apply filter_In in H; apply H.
Qed.

Lemma iterate_cleanup_destroys_off (n : nat) :
  forall i s, exists ids,
    effects (state_of (iterate_cleanup n i s)) = effects s ++ map DestroyBullet ids /\
    forall id, In id ids ->
      exists b, In b (children (bullets s)) /\ b_id b = id /\ off b = true.
Proof.
  induction n as [|n IH]; intros i s; cbn [iterate_cleanup].
  - exists []; cbn [state_of map]; rewrite app_nil_r; split; [reflexivity|intros ? []].
  - destruct (nth_error _ i) as [b|] eqn:E;
      [|exists []; cbn [state_of map]; rewrite app_nil_r; split; [reflexivity|intros ? []]].
    destruct (off b) eqn:Eb; [|apply IH].
    destruct (IH (S i) (destroy_bullet (b_id b) s)) as (ids & L & K).
    assert (K' : forall id, In id ids ->
              exists c, In c (children (bullets s)) /\ b_id c = id /\ off c = true).
    { intros id Hid; destruct (K id Hid) as (c & Hc & Hi & Ho); exists c.
      rewrite destroy_bullet_children in Hc; apply filter_In in Hc; tauto. }
    rewrite L; destruct (destroy_bullet_log (b_id b) s) as [-> | ->].
    + exists ids; split; [reflexivity|exact K'].
    + exists (b_id b :: ids); rewrite <- app_assoc; split; [reflexivity|].
      intros id [<-|Hid]; [|exact (K' id Hid)].
      exists b; split; [exact (nth_error_In _ _ E)|auto].
Qed.

Lemma nth_error_removelast {A} (l : list A) (i : nat) (a : A) :
  nth_error (removelast l) i = Some a ->
  nth_error l i = Some a /\ (S i < List.length l)%nat.
Proof.
  destruct l as [|x l0]; [destruct i; discriminate|].
  destruct (exists_last (l := x :: l0)) as (l' & b & E); [discriminate|].
  rewrite E, removelast_last, length_app; cbn [List.length]; intros H.
  assert (Hi : (i < List.length l')%nat) by (apply nth_error_Some; rewrite H; discriminate).
  rewrite nth_error_app1 by exact Hi; split; [exact H|lia].
Qed.

Lemma bullets_cleanup_throws (s : Scene) :
  threw (bullets_cleanup s) = true <->
  exists i b, nth_error (children (bullets s)) i = Some b /\ off b = true /\
              (S i < List.length (children (bullets s)))%nat.
Proof.
  split.
  - intros T.
    destruct (forallb (fun b => negb (off b)) (removelast (children (bullets s)))) eqn:F.
    + unfold bullets_cleanup in T.
      rewrite (iterate_cleanup_returns _ 0 s eq_refl F) in T; discriminate T.
    + apply forallb_false_at in F; destruct F as (i & b & Hi & Hb).
      apply nth_error_removelast in Hi; apply negb_false_iff in Hb.
      exists i, b; tauto.
  - intros (i & b & Hi & Hb & Hlt); unfold bullets_cleanup.
    destruct (iterate_cleanup _ 0 s) as [s'|s'] eqn:E; [|reflexivity].
    destruct (iterate_cleanup_done _ 0 s s' (le_n _) E)
      as [[_ Hk]|(l & c & Hc & _ & _ & Hk)]; cbn [skipn] in Hk;
      rewrite forallb_forall in Hk.
    + specialize (Hk b (nth_error_In _ _ Hi)); rewrite Hb in Hk; discriminate Hk.
    + rewrite Hc, length_app in Hlt; cbn [List.length] in Hlt.
      rewrite Hc, nth_error_app1 in Hi by lia.
      specialize (Hk b (nth_error_In _ _ Hi)); rewrite Hb in Hk; discriminate Hk.
Qed.

(** X20.  The cleanup of a tick throws exactly when a bullet other than
    the last of the group is above y = -50.  When it returns, no bullet
    above the bound is left, and nothing has changed if none was above
    it.  Returning or not, it destroys only bullets that are above the
    bound and adds none.  In the sample session with two bullets above the
    bound, it destroys the first, passes over the second and throws, and
    the tick that runs it throws without ticking the director. *)
Theorem bullets_cleanup_outcome (s : Scene) :
  let o := bullets_cleanup s in
  let s' := state_of o in
  (threw o = true <->
   exists i b, nth_error (children (bullets s)) i = Some b /\ off b = true /\
               (S i < List.length (children (bullets s)))%nat) /\
  (threw o = false ->
   forallb (fun b => negb (off b)) (children (bullets s')) = true) /\
  (forallb (fun b => negb (off b)) (children (bullets s)) = true -> o = Done s) /\
  (forall b, In b (children (bullets s')) -> In b (children (bullets s))) /\
  (exists ids,
     effects s' = effects s ++ map DestroyBullet ids /\
     forall id, In id ids ->
       exists b, In b (children (bullets s)) /\ b_id b = id /\ off b = true) /\
  (map (fun b => (b_id b, off b)) (children (bullets two_shots_above))
   = [(0%nat, true); (1%nat, true)] /\
   threw (bullets_cleanup two_shots_above) = true /\
   map b_id (children (bullets (state_of (bullets_cleanup two_shots_above)))) = [1%nat] /\
   threw (update no_keys 16 two_shots_above) = true /\
   timer (state_of (update no_keys 16 two_shots_above)) = timer two_shots_above).
Proof.
  intros o s'; split; [apply bullets_cleanup_throws|].
  split; [apply bullets_cleanup_keeps|].
  split; [|split; [apply iterate_cleanup_sub|split; [apply iterate_cleanup_destroys_off|]]].
  - intros F; subst o; unfold bullets_cleanup.
    destruct (iterate_cleanup _ 0 s) as [s1|s1] eqn:E.
    + destruct (iterate_cleanup_done _ 0 s s1 (le_n _) E)
        as [[-> _]|(l & c & Hc & Ho & _ & _)]; [reflexivity|].
      assert (Hin : In c (children (bullets s)))
        by (rewrite Hc; apply in_or_app; right; left; reflexivity).
      rewrite forallb_forall in F; specialize (F c Hin).
      rewrite Ho in F; discriminate F.
    + assert (T : threw (iterate_cleanup (List.length (children (bullets s))) 0 s) = false).
      { apply iterate_cleanup_returns; [reflexivity|]; cbn [skipn].
        rewrite forallb_forall in *; intros b Hb; apply F.
        destruct (exists_last (l := children (bullets s))) as (l & c & Hc);
          [intros C; rewrite C in Hb; destruct Hb|].
        rewrite Hc, removelast_last in *; apply in_or_app; left; exact Hb. }
      rewrite E in T; discriminate T.
  - split; [vm_compute; reflexivity|]; split; [vm_compute; reflexivity|].
    split; [vm_compute; reflexivity|]; split; vm_compute; reflexivity.
Qed.

(** ** A HUD that starts to listen late *)

Lemma hud_replay_either (l : list Effect) :
  forall u u',
    same_or_kept disc_text l u u' /\ same_or_kept hull_text l u u' /\
    same_or_kept sector_text l u u' /\ same_or_kept hud_hidden l u u' /\
    same_or_kept help_hidden l u u'.
Proof.
  unfold same_or_kept; induction l as [|e l IH]; intros u u'.
  - cbn [hud_replay fold_left]; repeat split; right; split; reflexivity.
  - change (hud_replay (e :: l) u) with (hud_replay l (hud_receive u e)).
    change (hud_replay (e :: l) u') with (hud_replay l (hud_receive u' e)).
    destruct (IH (hud_receive u e) (hud_receive u' e))
      as (H1 & H2 & H3 & H4 & H5).
    destruct e as [k|d h sec|on| | | | | | | | |]; cbn [hud_receive] in *;
      try (repeat split; assumption).
    + destruct d, h, sec;
        cbn [on_updateHud disc_text hull_text sector_text hud_hidden help_hidden] in *;
        (split; [|split; [|split; [|split]]]); try assumption;
        match goal with
        | H : ?a = ?b \/ (?a = ?c /\ ?b = ?c) |- ?a = ?b \/ _ =>
            left; destruct H as [H|[Ha Hb]]; congruence
        end.
    + cbn [on_photo disc_text hull_text sector_text hud_hidden help_hidden] in *;
        (split; [|split; [|split; [|split]]]); try assumption;
        match goal with
        | H : ?a = ?b \/ (?a = ?c /\ ?b = ?c) |- ?a = ?b \/ _ =>
            left; destruct H as [H|[Ha Hb]]; congruence
        end.
Qed.

(** X21.  A HUD that starts to listen at any moment, with whatever
    texts it has, shows after any steps, in each of its texts and flags,
    either the scene's current value, or what it showed when it began
    while the value reads as it did then: nothing it shows is out of
    date. *)
Theorem hud_never_out_of_date (steps : list Step) (s : Scene) (u0 : Hud) :
  let s' := run steps s in
  exists l, effects s' = effects s ++ l /\
    let u := hud_replay l u0 in
    current_or_untouched (disc_text u) (disc_text u0)
      (text_of_Z (Player.discoveries (player s'))) (text_of_Z (Player.discoveries (player s))) /\
    current_or_untouched (hull_text u) (hull_text u0)
      (text_of_Z (Player.hull (player s'))) (text_of_Z (Player.hull (player s))) /\
    current_or_untouched (sector_text u) (sector_text u0)
      (Sector.name (sector s')) (Sector.name (sector s)) /\
    current_or_untouched (hud_hidden u) (hud_hidden u0) (photo s') (photo s) /\
    current_or_untouched (help_hidden u) (help_hidden u0) (photo s') (photo s).
Proof.
  intros s'; destruct (evolves_run steps s) as (_ & _ & _ & l & E & S); fold s' in E, S.
  exists l; split; [exact E|]; cbv zeta.
  set (u1 := mkHud (text_of_Z (Player.discoveries (player s)))
                   (text_of_Z (Player.hull (player s)))
                   (Sector.name (sector s)) (photo s) (photo s)).
  assert (S1 : shown s u1) by (repeat split).
  destruct (S u1 S1) as (C1 & C2 & C3 & C4 & C5).
  destruct (hud_replay_either l u0 u1) as (H1 & H2 & H3 & H4 & H5).
  unfold current_or_untouched, same_or_kept in *; cbn [u1 disc_text hull_text sector_text hud_hidden help_hidden] in *.
  split; [|split; [|split; [|split]]].
  - destruct H1 as [H|[Ha Hb]]; [left|right; split]; congruence.
  - destruct H2 as [H|[Ha Hb]]; [left|right; split]; congruence.
  - destruct H3 as [H|[Ha Hb]]; [left|right; split]; congruence.
  - destruct H4 as [H|[Ha Hb]]; [left|right; split]; congruence.
  - destruct H5 as [H|[Ha Hb]]; [left|right; split]; congruence.
Qed.
